(** * Write/read consistency pipeline of the e-commerce microservices

    A shallow embedding of the order read-model projection
    ([services/orders/internal/orders/projections/mongo_order_projection.go])
    together with models of the collaborators it talks to.  The first part
    of the file holds the definitions, the second part the properties. *)

From stdpp Require Import gmap strings list sorting.
From Stdlib Require Import ZArith.

Open Scope string_scope.
Open Scope list_scope.

(** ** Go errors ([emperror.dev/errors]) *)

Module Errors.

(** A non-nil Go error value: a leaf message or a cause wrapped with a
    message. *)
Inductive err : Type :=
| New (msg : string)
| Wrapped (cause : err) (msg : string).

(** The Go [error] interface value: [None] is [nil]. *)
Definition error : Type := option err.

Definition nil : error := None.

(** [errors.WrapIf(err, msg)]: nil stays nil, anything else is wrapped. *)
Definition WrapIf (e : error) (msg : string) : error :=
  match e with
  | None => None
  | Some c => Some (Wrapped c msg)
  end.

End Errors.

(** ** The order projection *)

Module Projection.
Import Errors.

(** [uuid.UUID] (github.com/satori/go.uuid): sixteen bytes, kept as a
    number. *)
Definition UUID : Type := N.

(** [time.Time], as an instant on some clock. *)
Definition Time : Type := Z.

Section Model.

(** The write-side value object [ShopItem] and the read-side
    [ShopItemReadModel] are declared in other packages; the
    projection only moves them around, so they stay abstract. *)
Context {ShopItem ShopItemReadModel : Type}.

(** [creatingOrderEvents.OrderCreatedEventV1] is declared in another
    package; these are the fields [onOrderCreated] reads. *)
Record OrderCreatedEventV1 : Type := {
  evt_OrderId : UUID;
  evt_ShopItems : list ShopItem;
  evt_AccountEmail : string;
  evt_DeliveryAddress : string;
  evt_DeliveredTime : Time
}.

(** The dynamic type held by [StreamEvent.Event]: the one event the
    projection knows, any other event (named by its type), or a nil
    interface value.  A nil pointer of type [*OrderCreatedEventV1], on
    which the handler would panic, is left out. *)
Inductive IDomainEvent : Type :=
| EvOrderCreatedV1 (evt : OrderCreatedEventV1)
| EvOther (eventType : string)
| EvNil.

(** Modelled from the spec: [models.StreamEvent], the envelope handed to a
    projection, is declared in another package.  Of its fields the
    projection reads [Event] only; the message id and the stream position
    are those of the specification's EventEnvelope. *)
Record StreamEvent : Type := {
  EventID : UUID;
  Position : Z;
  Event : IDomainEvent
}.

(** Modelled from the spec: [read_models.OrderReadModel] and its
    constructor [NewOrderReadModel] are declared in another package.  The
    read model is the document that holds its own document id, the order
    id, the items, the account email, the delivery address and the
    delivered time, and the constructor stores its arguments in the order
    of the call in [onOrderCreated]. *)
Record OrderReadModel : Type := {
  Id : UUID;
  OrderId : UUID;
  ShopItems : list ShopItemReadModel;
  AccountEmail : string;
  DeliveryAddress : string;
  DeliveredTime : Time
}.

(** Modelled from the spec: [read_models.NewOrderReadModel], declared in
    another package, stores its arguments field by field. *)
Definition NewOrderReadModel (id orderId : UUID)
    (items : list ShopItemReadModel) (accountEmail deliveryAddress : string)
    (deliveryTime : Time) : OrderReadModel :=
  {| Id := id; OrderId := orderId; ShopItems := items;
     AccountEmail := accountEmail; DeliveryAddress := deliveryAddress;
     DeliveredTime := deliveryTime |}.

Context {Store : Type}.

(** [repositories.OrderReadRepository]: an interface value.  Only
    [CreateOrder] is called by the projection; it returns the stored model
    or an error and may change the store. *)
Record OrderReadRepository : Type := {
  CreateOrder : OrderReadModel -> Store -> (OrderReadModel + err) * Store
}.

(** [mongoOrderProjection]: the struct behind [projection.IProjection].
    Its [kafkaProducer] field is never used by a method and is left out. *)
Record mongoOrderProjection : Type := {
  mongoOrderRepository : OrderReadRepository
}.

Definition NewMongoOrderProjection (repo : OrderReadRepository)
    : mongoOrderProjection :=
  {| mongoOrderRepository := repo |}.

(** A call that reached the repository, as seen from outside. *)
Inductive RepoCall : Type :=
| CallCreateOrder (orderRead : OrderReadModel).

(** What the projection can touch: the read store behind the repository,
    the number of identifiers drawn from the UUID generator so far, and
    the calls made on the repository, oldest first. *)
Record World : Type := {
  store : Store;
  drawn : nat;
  calls : list RepoCall
}.

(** Computations over [World]. *)
Definition M (A : Type) : Type := World -> A * World.

#[local] Instance M_ret : MRet M := fun A a w => (a, w).
#[local] Instance M_bind : MBind M :=
  fun A B k c w => let '(a, w') := c w in k a w'.

(** The package-level collaborators: [mapper.Map] for the item slice,
    which fails or gives the mapped slice, and the generator behind
    [uuid.NewV4], given by the identifier of each successive draw. *)
Context (mapper_Map : list ShopItem -> list ShopItemReadModel + err).
Context (uuid_source : nat -> UUID).

(** [uuid.NewV4()]: the next identifier of the generator. *)
Definition uuid_NewV4 : M UUID :=
  fun w => (uuid_source (drawn w),
            {| store := store w; drawn := S (drawn w); calls := calls w |}).

(** [m.mongoOrderRepository.CreateOrder(ctx, orderRead)] *)
Definition repo_CreateOrder (m : mongoOrderProjection)
    (orderRead : OrderReadModel) : M (OrderReadModel + err) :=
  fun w =>
    let '(r, s') := CreateOrder (mongoOrderRepository m) orderRead (store w) in
    (r, {| store := s'; drawn := drawn w;
           calls := calls w ++ [CallCreateOrder orderRead] |}).

(** [onOrderCreated(ctx, evt)]; the context is only passed on. *)
Definition onOrderCreated (m : mongoOrderProjection)
    (evt : OrderCreatedEventV1) : M error :=
  match mapper_Map (evt_ShopItems evt) with
  | inr e =>
      mret (WrapIf (Some e)
        "[mongoOrderProjection_onOrderCreated.Map] error in mapping shopItems")
  | inl items =>
      id ← uuid_NewV4;
      let orderRead :=
        NewOrderReadModel id (evt_OrderId evt) items (evt_AccountEmail evt)
          (evt_DeliveryAddress evt) (evt_DeliveredTime evt) in
      r ← repo_CreateOrder m orderRead;
      match r with
      | inr e =>
          mret (WrapIf (Some e)
            "[mongoOrderProjection_onOrderCreated.CreateOrder] error in creating order with mongoOrderRepository")
      | inl _ => mret nil
      end
  end.

(** [ProcessEvent(ctx, streamEvent)]: the type switch on the event. *)
Definition ProcessEvent (m : mongoOrderProjection)
    (streamEvent : StreamEvent) : M error :=
  match Event streamEvent with
  | EvOrderCreatedV1 evt => onOrderCreated m evt
  | _ => mret nil
  end.

(** The type test of the switch in [ProcessEvent]. *)
Definition is_OrderCreatedEventV1 (e : IDomainEvent) : bool :=
  match e with
  | EvOrderCreatedV1 _ => true
  | _ => false
  end.

(** The read-model state left by processing [streamEvent] once, twice. *)
Definition once (m : mongoOrderProjection) (streamEvent : StreamEvent)
    (w : World) : World :=
  snd (ProcessEvent m streamEvent w).

Definition twice (m : mongoOrderProjection) (streamEvent : StreamEvent)
    (w : World) : World :=
  once m streamEvent (once m streamEvent w).

(** P2 of the specification at one envelope and one state: processing the
    envelope a second time leaves the read store as the first left it. *)
Definition idempotent_at (m : mongoOrderProjection)
    (streamEvent : StreamEvent) (w : World) : Prop :=
  store (twice m streamEvent w) = store (once m streamEvent w).

(** What a repository owes its callers: a [CreateOrder] that reports
    success has put the document in the store, where [holds] says which
    documents a store contains. *)
Record RepositoryContract (repo : OrderReadRepository)
    (holds : Store -> OrderReadModel -> Prop) : Prop := {
  CreateOrder_stores :
    forall orderRead s stored s',
      CreateOrder repo orderRead s = (inl stored, s') -> holds s' orderRead
}.

End Model.

Arguments OrderCreatedEventV1 : clear implicits.
Arguments IDomainEvent : clear implicits.
Arguments StreamEvent : clear implicits.
Arguments OrderReadModel : clear implicits.
Arguments OrderReadRepository : clear implicits.
Arguments mongoOrderProjection : clear implicits.
Arguments RepoCall : clear implicits.
Arguments World : clear implicits.

(** *** An in-memory repository

    A document collection whose [CreateOrder] inserts at the end and
    refuses a document id that is already taken, as a collection with a
    unique [_id] does. *)

Definition memStore : Type := list (OrderReadModel string).

Definition memCreateOrder (orderRead : OrderReadModel string) (s : memStore)
    : (OrderReadModel string + err) * memStore :=
  if existsb (fun d => N.eqb (Id d) (Id orderRead)) s
  then (inr (New "duplicate key"), s)
  else (inl orderRead, s ++ [orderRead]).

Definition memRepository : OrderReadRepository string memStore :=
  {| CreateOrder := memCreateOrder |}.

Definition memProjection : mongoOrderProjection string memStore :=
  NewMongoOrderProjection memRepository.

Definition memHolds (s : memStore) (d : OrderReadModel string) : Prop :=
  In d s.

(** A repository whose store is out of reach: every call fails. *)
Definition downRepository : OrderReadRepository string memStore :=
  {| CreateOrder := fun _ s => (inr (New "storage unavailable"), s) |}.

(** A mapper with the item mapping registered (items keep their names),
    and one where it was never registered. *)
Definition configured_Map (items : list string) : list string + err :=
  inl items.

Definition unconfigured_Map (items : list string) : list string + err :=
  inr (New "no mapping registered for the given types").

(** A generator that hands out 0, 1, 2, ... *)
Definition counting_source (n : nat) : UUID := N.of_nat n.

Definition emptyWorld : World string memStore :=
  {| store := []; drawn := 0; calls := [] |}.

(** The scenario of the specification: order 7 with items A and B. *)
Definition orderCreated7 : OrderCreatedEventV1 string :=
  {| evt_OrderId := 7%N; evt_ShopItems := ["A"; "B"];
     evt_AccountEmail := "customer@example.org";
     evt_DeliveryAddress := "1 Main Street";
     evt_DeliveredTime := 1700000000%Z |}.

Definition envelope7 : StreamEvent string :=
  {| EventID := 1001%N; Position := 1%Z;
     Event := EvOrderCreatedV1 orderCreated7 |}.

(** An envelope carrying an event the projection has no case for. *)
Definition envelopeShipped : StreamEvent string :=
  {| EventID := 1002%N; Position := 2%Z;
     Event := EvOther "OrderShippedEventV1" |}.

End Projection.

(** ** Domain events, the bus and the event publisher *)

Module Messaging.
Import Errors.

(** Modelled from the spec: the event publisher, the message bus and the
    consumer live in other packages (here only a mock of the bus is used).
    The data model is that of section 3: a [DomainEvent] carries its event
    type, aggregate id, per-aggregate stream position, payload and
    occurred-at time; an [EventEnvelope] adds the message id, the type tag
    and the stream position. *)
Record DomainEvent : Type := {
  EventType : string;
  AggregateId : N;
  StreamPosition : N;
  Payload : string;
  OccurredAt : Z
}.

(** Modelled from the spec: the wire form of a [DomainEvent]
    (section 3). *)
Record EventEnvelope : Type := {
  MessageId : N;
  TypeTag : string;
  EnvelopePosition : N;
  Body : DomainEvent
}.

#[export] Instance DomainEvent_eq_dec : EqDecision DomainEvent.
Proof. solve_decision. Defined.

#[export] Instance EventEnvelope_eq_dec : EqDecision EventEnvelope.
Proof. solve_decision. Defined.

(** Modelled from the spec: wrapping copies the type tag and the stream
    position from the event (section 4.3). *)
Definition wrapEvent (messageId : N) (e : DomainEvent) : EventEnvelope :=
  {| MessageId := messageId; TypeTag := EventType e;
     EnvelopePosition := StreamPosition e; Body := e |}.

(** The aggregate stream an envelope belongs to. *)
Definition streamOf (env : EventEnvelope) : N := AggregateId (Body env).

(** Modelled from the spec: the bus keeps one first-in first-out queue per
    aggregate stream (section 5), may refuse a publication with a transient
    error (section 4.3), and is observed through the envelopes it has
    accepted, oldest first.  [faults] scripts the bus's availability: one
    entry is consumed by each publication, [true] meaning a transient
    failure. *)
Record Bus : Type := {
  queues : gmap N (list EventEnvelope);
  accepted : list EventEnvelope;
  faults : list bool
}.

(** The queue of aggregate stream [a]; a stream never published to has
    the empty queue. *)
Definition queue (a : N) (b : Bus) : list EventEnvelope :=
  default [] (queues b !! a).

(** Modelled from the spec: [Publish(envelope) error] of the bus
    (section 6).  A refused envelope leaves no trace; an accepted one goes
    to the end of its stream's queue. *)
Definition bus_Publish (env : EventEnvelope) (b : Bus) : error * Bus :=
  match faults b with
  | true :: later =>
      (Some (New "bus unavailable"),
       {| queues := queues b; accepted := accepted b; faults := later |})
  | _ =>
      (nil,
       {| queues := <[streamOf env := queue (streamOf env) b ++ [env]]> (queues b);
          accepted := accepted b ++ [env];
          faults := tail (faults b) |})
  end.

(** Modelled from the spec: a worker bound to the subscription pulls one
    envelope at a time from the head of a queue (section 4.4).  A schedule
    names the queue the worker turns to at each pull; an empty queue gives
    nothing. *)
Definition pull (a : N) (b : Bus) : option EventEnvelope * Bus :=
  match queue a b with
  | [] => (None, b)
  | env :: rest =>
      (Some env,
       {| queues := <[a := rest]> (queues b); accepted := accepted b;
          faults := faults b |})
  end.

(** Modelled from the spec: what a subscription keeps for its worker
    (section 4.4): the bus it feeds on, how often each message was
    negatively acknowledged, by message id, and the dead-letter sink. *)
Record Subscription : Type := {
  feed : Bus;
  refusals : gmap N nat;
  deadLetters : list EventEnvelope
}.

Definition subscribe (b : Bus) : Subscription :=
  {| feed := b; refusals := ∅; deadLetters := [] |}.

Definition refusalsOf (env : EventEnvelope) (s : Subscription) : nat :=
  default 0 (refusals s !! MessageId env).

(** Modelled from the spec: one turn of the worker (section 4.4).  It
    takes the envelope at the head of queue [a] and hands it to the
    projection.  If the projection applies it, the envelope is
    acknowledged and leaves the queue.  If not, it is negatively
    acknowledged and goes back to the head of its queue for redelivery,
    which keeps the order within the stream (section 5); once it has been
    refused [bound] times it goes to the dead-letter sink instead and the
    worker goes on with the next envelope.  The result is the envelope
    handed to the projection, if there was one. *)
Definition turn (bound : nat) (a : N) (applies : bool) (s : Subscription)
    : option EventEnvelope * Subscription :=
  match pull a (feed s) with
  | (None, _) => (None, s)
  | (Some env, b') =>
      if applies then
        (Some env,
         {| feed := b'; refusals := refusals s;
            deadLetters := deadLetters s |})
      else if decide (refusalsOf env s < bound) then
        (Some env,
         {| feed := feed s;
            refusals := <[MessageId env := S (refusalsOf env s)]> (refusals s);
            deadLetters := deadLetters s |})
      else
        (Some env,
         {| feed := b'; refusals := refusals s;
            deadLetters := deadLetters s ++ [env] |})
  end.

(** Modelled from the spec: the envelopes a single worker hands to its
    projection, in order.  The schedule names, turn by turn, the queue the
    worker takes from and whether the projection applies what it is
    handed; an empty queue gives nothing. *)
Fixpoint deliveries (bound : nat) (schedule : list (N * bool))
    (s : Subscription) : list EventEnvelope :=
  match schedule with
  | [] => []
  | (a, applies) :: later =>
      match turn bound a applies s with
      | (Some env, s') => env :: deliveries bound later s'
      | (None, s') => deliveries bound later s'
      end
  end.

(** The subscription a worker leaves behind. *)
Fixpoint afterDeliveries (bound : nat) (schedule : list (N * bool))
    (s : Subscription) : Subscription :=
  match schedule with
  | [] => s
  | (a, applies) :: later =>
      afterDeliveries bound later (snd (turn bound a applies s))
  end.

(** The transient failures the bus still has in store. *)
Definition outages (b : Bus) : nat :=
  length (filter (fun f : bool => f = true) (faults b)).

(** [h] reads a front of [l] from its head, staying on an element any
    number of times before it moves on: the shape of what a worker is
    handed from one queue when envelopes are redelivered. *)
Inductive Stutters {A : Type} : list A -> list A -> Prop :=
| stutters_done l : Stutters l []
| stutters_stay x l h : Stutters (x :: l) h -> Stutters (x :: l) (x :: h)
| stutters_next x l h : Stutters l h -> Stutters (x :: l) (x :: h).

(** Every occurrence of [y] in [l] has an occurrence of [x] before it. *)
Definition Precedes {A : Type} (x y : A) (l : list A) : Prop :=
  forall l1 l2, l = l1 ++ y :: l2 -> x ∈ l1.

(** Bus [b'] is bus [b] after it accepted the envelopes [sent], in that
    order: they are at the end of its record and of their queues. *)
Definition Appended (b : Bus) (sent : list EventEnvelope) (b' : Bus) : Prop :=
  accepted b' = accepted b ++ sent /\
  forall a, queue a b' = queue a b ++ filter (fun env => streamOf env = a) sent.

(** Modelled from the spec: the publisher's view of the world, which is
    the bus, the number of message ids drawn so far, and the envelopes
    offered to the bus by each publish attempt so far, oldest attempt
    first. *)
Record PubWorld : Type := {
  bus : Bus;
  nextId : nat;
  attemptsMade : list (list EventEnvelope)
}.

Section Publisher.

(** The generator of message ids, given by the id of each successive
    draw. *)
Context (id_source : nat -> N).

(** Modelled from the spec: [Publish] wraps each event of the batch in an
    envelope with a new message id, the ids being drawn once per call. *)
Definition wrapBatch (first : nat) (events : list DomainEvent)
    : list EventEnvelope :=
  imap (fun i e => wrapEvent (id_source (first + i)) e) events.

(** Modelled from the spec: one attempt.  The envelopes go to the bus in
    the order of the batch (section 4.3); the first refusal ends the
    attempt. *)
Fixpoint sendAll (envs : list EventEnvelope) (b : Bus) : error * Bus :=
  match envs with
  | [] => (nil, b)
  | env :: rest =>
      match bus_Publish env b with
      | (Some e, b') => (Some e, b')
      | (None, b') => sendAll rest b'
      end
  end.

(** One attempt, noted among the attempts made. *)
Definition attempt (envs : list EventEnvelope) (w : PubWorld)
    : error * PubWorld :=
  let '(e, b') := sendAll envs (bus w) in
  (e, {| bus := b'; nextId := nextId w;
         attemptsMade := attemptsMade w ++ [envs] |}).

(** Modelled from the spec: on a transient error the whole batch is tried
    again, at most [retries] more times, with the envelopes of the call. *)
Fixpoint attempts (retries : nat) (envs : list EventEnvelope) (w : PubWorld)
    : error * PubWorld :=
  match attempt envs w with
  | (None, w') => (nil, w')
  | (Some e, w') =>
      match retries with
      | O => (Some e, w')
      | S fewer => attempts fewer envs w'
      end
  end.

(** Modelled from the spec: [Publish(ctx, events) -> error]. *)
Definition Publish (events : list DomainEvent) (retries : nat) (w : PubWorld)
    : error * PubWorld :=
  let envs := wrapBatch (nextId w) events in
  attempts retries envs
    {| bus := bus w; nextId := nextId w + length events;
       attemptsMade := attemptsMade w |}.

(** What holds of every world reached by publishing and pulling: an
    envelope waiting in a queue belongs to that queue's aggregate and was
    accepted by the bus, and every accepted envelope carries an id drawn
    earlier. *)
Record Inv (w : PubWorld) : Prop := {
  inv_routed :
    forall a env, env ∈ queue a (bus w) ->
      streamOf env = a /\ env ∈ accepted (bus w);
  inv_drawn :
    forall env, env ∈ accepted (bus w) ->
      exists n, n < nextId w /\ MessageId env = id_source n
}.

End Publisher.

(** A bus on which nothing was published, with the given availability. *)
Definition freshBus (script : list bool) : Bus :=
  {| queues := ∅; accepted := []; faults := script |}.

Definition freshWorld (script : list bool) : PubWorld :=
  {| bus := freshBus script; nextId := 0; attemptsMade := [] |}.

(** A generator that hands out 100, 101, 102, ... *)
Definition counting_ids (n : nat) : N := N.of_nat (100 + n).

(** Two events of order 7 and one of order 8, raised in that order. *)
Definition created7 : DomainEvent :=
  {| EventType := "OrderCreatedEventV1"; AggregateId := 7; StreamPosition := 1;
     Payload := "items A, B"; OccurredAt := 1700000000 |}.

Definition shipped7 : DomainEvent :=
  {| EventType := "OrderShippedEventV1"; AggregateId := 7; StreamPosition := 2;
     Payload := "carrier X"; OccurredAt := 1700000100 |}.

Definition created8 : DomainEvent :=
  {| EventType := "OrderCreatedEventV1"; AggregateId := 8; StreamPosition := 1;
     Payload := "items C"; OccurredAt := 1700000050 |}.

Definition batch78 : list DomainEvent := [created7; created8; shipped7].

End Messaging.

(** ** The command/query mediator *)

Module Mediatr.
Import Errors.

Section Mediator.

Context {Request Response : Type}.

(** Modelled from the spec: the mediator ([go-mediatr]) is a package of its
    own; the services call its [Send] and [ClearRequestRegistrations].  Following section 4.2, the registry maps a request type, named
    by its type identifier, to its handler, and keeps an ordered chain of
    behaviors that wrap the handler. *)
Definition Handler : Type := Request -> Response + err.

(** Modelled from the spec: a behavior gets the request and the rest of
    the pipeline, and may return early without calling it. *)
Definition Behavior : Type :=
  Request -> (Request -> Response + err) -> Response + err.

(** Modelled from the spec: the process-wide registration state. *)
Record Registry : Type := {
  handlers : gmap string Handler;
  behaviors : list Behavior
}.

Definition emptyRegistry : Registry :=
  {| handlers := ∅; behaviors := [] |}.

(** Modelled from the spec: registering a handler for a type that has one
    is an error, and the registry stays as it was. *)
Definition RegisterHandler (commandType : string) (h : Handler)
    (reg : Registry) : error * Registry :=
  match handlers reg !! commandType with
  | Some _ =>
      (Some (New "a handler is already registered for this request type"), reg)
  | None =>
      (nil, {| handlers := <[commandType := h]> (handlers reg);
               behaviors := behaviors reg |})
  end.

(** Modelled from the spec: behaviors are kept in the order of their
    registration. *)
Definition RegisterBehavior (b : Behavior) (reg : Registry) : Registry :=
  {| handlers := handlers reg; behaviors := behaviors reg ++ [b] |}.

(** Modelled from the spec: the reset that tests use between runs; the
    end-to-end fixture calls it on cleanup. *)
Definition ClearRequestRegistrations (reg : Registry) : Registry :=
  {| handlers := ∅; behaviors := behaviors reg |}.

(** Modelled from the spec: startup wiring.  The registrations are made
    one after the other and the first failure ends the startup with that
    error (sections 4.2 and 6: fail fast). *)
Fixpoint configure (registrations : list (string * Handler)) (reg : Registry)
    : error * Registry :=
  match registrations with
  | [] => (nil, reg)
  | (commandType, h) :: later =>
      match RegisterHandler commandType h reg with
      | (Some e, reg') => (Some e, reg')
      | (None, reg') => configure later reg'
      end
  end.

(** Modelled from the spec: the handler wrapped by the behaviors, the
    first behavior outermost. *)
Definition pipeline (bs : list Behavior) (h : Handler) : Handler :=
  foldr (fun b next request => b request next) h bs.

(** Modelled from the spec: [Send] resolves the handler registered for the
    request's type and runs it inside the behaviors. *)
Definition Send (requestType : string) (request : Request) (reg : Registry)
    : Response + err :=
  match handlers reg !! requestType with
  | None => inr (New "no handler is registered for this request type")
  | Some h => pipeline (behaviors reg) h request
  end.

End Mediator.

Arguments Handler : clear implicits.
Arguments Behavior : clear implicits.
Arguments Registry : clear implicits.

(** Two handlers over textual requests and responses. *)
Definition createProduct : Handler string string :=
  fun request => inl ("created " ++ request)%string.

Definition deleteProduct : Handler string string :=
  fun request => inl ("deleted " ++ request)%string.

Definition productRegistrations : list (string * Handler string string) :=
  [("CreateProduct", createProduct); ("DeleteProduct", deleteProduct)].

End Mediatr.

(** ** The unit of work *)

Module Uow.
Import Errors Messaging.

Section UnitOfWork.

(** The transactional store's content and the result type of an action. *)
Context {Db Result : Type}.

(** The message-id generator and the retry bound of the event publisher
    the unit of work hands its events to. *)
Context (id_source : nat -> N) (retries : nat).

(** Modelled from the spec: what a unit of work does to the store and
    the publisher, as seen from outside. *)
Inductive Step : Type :=
| Began
| ActionRan
| Committed
| RolledBack
| HandedToPublisher (batch : list DomainEvent).

(** Modelled from the spec: the unit of work lives in another package
    (the unit tests run against a mock of it).  Following section 4.1, the action gets a
    transaction-scoped context: the working copy of the store, which its
    repositories change, and the buffer of the events they raise. *)
Record TxContext : Type := {
  working : Db;
  raised : list DomainEvent
}.

(** Modelled from the spec: an action returns a result and an error, and
    leaves the transaction-scoped context as its repositories made it.  It
    sees nothing but that context, so a nested [Do] cannot be written. *)
Definition Action : Type := TxContext -> (option Result * error) * TxContext.

(** Modelled from the spec: the durable content of the store, the
    publisher's world, and the steps taken so far, oldest first. *)
Record UowWorld : Type := {
  durable : Db;
  messaging : PubWorld;
  steps : list Step
}.

Definition UowM (A : Type) : Type := UowWorld -> A * UowWorld.

#[local] Instance UowM_ret : MRet UowM := fun A a w => (a, w).
#[local] Instance UowM_bind : MBind UowM :=
  fun A B k c w => let '(a, w') := c w in k a w'.

Definition record (s : Step) (w : UowWorld) : UowWorld :=
  {| durable := durable w; messaging := messaging w; steps := steps w ++ [s] |}.

Definition beginTx : UowM TxContext :=
  fun w => ({| working := durable w; raised := [] |}, record Began w).

Definition runAction (action : Action) (tx : TxContext)
    : UowM ((option Result * error) * TxContext) :=
  fun w => (action tx, record ActionRan w).

Definition commit (tx : TxContext) : UowM unit :=
  fun w =>
    (tt, record Committed
           {| durable := working tx; messaging := messaging w;
              steps := steps w |}).

Definition rollback : UowM unit :=
  fun w => (tt, record RolledBack w).

Definition handOver (batch : list DomainEvent) : UowM error :=
  fun w =>
    let '(e, mw) := Publish id_source batch retries (messaging w) in
    (e, record (HandedToPublisher batch)
          {| durable := durable w; messaging := mw; steps := steps w |}).

(** Modelled from the spec: [Do(ctx, action)] begins a transaction, runs
    the action, rolls back when the action fails, and otherwise commits
    and then hands the buffered events to the publisher; a failure of the
    publisher is reported and the commit stays. *)
Definition Do (action : Action) : UowM (option Result * error) :=
  tx ← beginTx;
  out ← runAction action tx;
  let '((result, e), tx') := out in
  match e with
  | Some _ => _ ← rollback; mret (result, e)
  | None =>
      _ ← commit tx';
      published ← handOver (raised tx');
      mret (result,
            WrapIf published "events were not published after the commit")
  end.

(** The outcome of the action as [Do] runs it in world [w]. *)
Definition actionOutcome (action : Action) (w : UowWorld)
    : (option Result * error) * TxContext :=
  action {| working := durable w; raised := [] |}.

End UnitOfWork.

Arguments TxContext : clear implicits.
Arguments Action : clear implicits.
Arguments UowWorld : clear implicits.

(** A store of order documents by order id, and two actions on it: one
    that saves order 7 and raises its events, one that fails after having
    changed its working copy. *)
Definition ordersDb : Type := gmap N string.

Definition createOrder7 : Action ordersDb string :=
  fun tx =>
    ((Some "order 7 created", nil),
     {| working := <[7%N := "items A, B"]> (working tx);
        raised := raised tx ++ [created7; shipped7] |}).

Definition failingAction : Action ordersDb string :=
  fun tx =>
    ((None, Some (New "conflict: the order was modified concurrently")),
     {| working := <[7%N := "items A, B"]> (working tx);
        raised := raised tx ++ [created7] |}).

Definition startWorld (script : list bool) : UowWorld ordersDb :=
  {| durable := ∅; messaging := freshWorld script; steps := [] |}.

End Uow.

(** ** Runs of the order projection *)

Module ProjectionRuns.
Import Errors Projection.

Section Runs.

Context {ShopItem ShopItemReadModel Store : Type}.
Context (mapper_Map : list ShopItem -> list ShopItemReadModel + err).
Context (uuid_source : nat -> UUID).

(** [ProcessEvent] applied to the envelopes of a list in turn, each on the
    world the one before left, whatever it returned. *)
Definition processAll (m : mongoOrderProjection ShopItemReadModel Store)
    (streamEvents : list (StreamEvent ShopItem))
    (w : World ShopItemReadModel Store) : World ShopItemReadModel Store :=
  foldl (fun w' se => once mapper_Map uuid_source m se w') w streamEvents.

(** What an envelope makes the projection ask of the repository: nothing,
    or a read model for an [OrderCreatedEventV1] with its mapped items. *)
Definition requested (se : StreamEvent ShopItem)
    : option (OrderCreatedEventV1 ShopItem * list ShopItemReadModel) :=
  match Event se with
  | EvOrderCreatedV1 evt =>
      match mapper_Map (evt_ShopItems evt) with
      | inl items => Some (evt, items)
      | inr _ => None
      end
  | _ => None
  end.

(** The read model [onOrderCreated] builds under document id [id]. *)
Definition documentOf (id : UUID)
    (r : OrderCreatedEventV1 ShopItem * list ShopItemReadModel)
    : OrderReadModel ShopItemReadModel :=
  NewOrderReadModel id (evt_OrderId (fst r)) (snd r) (evt_AccountEmail (fst r))
    (evt_DeliveryAddress (fst r)) (evt_DeliveredTime (fst r)).

(** The read models a run asks for when the generator stands at its
    [first]-th draw: one per request, with the document ids in the order of
    the draws. *)
Definition documentsOf (first : nat)
    (rs : list (OrderCreatedEventV1 ShopItem * list ShopItemReadModel))
    : list (OrderReadModel ShopItemReadModel) :=
  zip_with documentOf (uuid_source <$> seq first (length rs)) rs.

End Runs.

(** The order-8 event, and an envelope for it. *)
Definition orderCreated8 : OrderCreatedEventV1 string :=
  {| evt_OrderId := 8%N; evt_ShopItems := ["C"];
     evt_AccountEmail := "other@example.org";
     evt_DeliveryAddress := "2 Side Street";
     evt_DeliveredTime := 1700000500%Z |}.

Definition envelope8 : StreamEvent string :=
  {| EventID := 1003%N; Position := 1%Z;
     Event := EvOrderCreatedV1 orderCreated8 |}.

End ProjectionRuns.

(** ** OpenTelemetry tracing set-up ([tracing] package) *)

Module Tracing.
Import Errors.

(** [time.Duration], in nanoseconds. *)
Definition Duration : Type := Z.

Definition Second : Duration := 1000000000%Z.

(** The options of [otlptracegrpc] that the set-up uses. *)
Inductive GrpcOption : Type :=
| WithTimeout (d : Duration)
| WithInsecure
| WithEndpoint (endpoint : string)
| WithHeaders (headers : gmap string string).

#[export] Instance GrpcOption_eq_dec : EqDecision GrpcOption.
Proof. solve_decision. Defined.

(** [TracingOptions] and the option structs it points to are declared in
    another file of the package; these are the fields the set-up reads.
    The Jaeger, Elastic APM and Uptrace options all consist of an OTLP
    endpoint and headers. *)
Record OTLPExporterOptions : Type := {
  OTLPEndpoint : string;
  OTLPHeaders : gmap string string
}.

Record ZipkinOptions : Type := {
  Url : string
}.

Record OTLPProvider : Type := {
  Enabled : bool;
  provider_OTLPEndpoint : string;
  provider_OTLPHeaders : gmap string string
}.

Record TracingOptions : Type := {
  ServiceName : string;
  Version : string;
  Id : Z;
  InstrumentationName : string;
  AlwaysOnSampler : bool;
  UseOTLP : bool;
  UseStdout : bool;
  JaegerExporterOptions : option OTLPExporterOptions;
  ZipkinExporterOptions : option ZipkinOptions;
  ElasticApmExporterOptions : option OTLPExporterOptions;
  UptraceExporterOptions : option OTLPExporterOptions;
  OTLPProviders : list OTLPProvider
}.

(** [attribute.KeyValue] with the two kinds of value in use. *)
Inductive AttrValue : Type :=
| StringValue (s : string)
| Int64Value (n : Z).

Definition KeyValue : Type := string * AttrValue.

(** The options handed to [resource.New]. *)
Inductive ResourceOption : Type :=
| WithFromEnv
| WithTelemetrySDK
| WithHost
| WithOS
| WithSchemaURL (url : string)
| WithAttributes (attrs : list KeyValue).

(** Constants of [semconv] v1.21.0. *)
Definition semconv_SchemaURL : string :=
  "https://opentelemetry.io/schemas/1.21.0".

Definition semconv_ServiceName (name : string) : KeyValue :=
  ("service.name", StringValue name).

Definition semconv_ServiceVersion (version : string) : KeyValue :=
  ("service.version", StringValue version).

Definition semconv_TelemetrySDKVersion (version : string) : KeyValue :=
  ("telemetry.sdk.version", StringValue version).

Definition semconv_TelemetrySDKLanguageGo : KeyValue :=
  ("telemetry.sdk.language", StringValue "go").

(** The samplers and propagators the set-up chooses from. *)
Inductive Sampler : Type :=
| AlwaysSample
| NeverSample.

Inductive Propagator : Type :=
| OT
| Baggage
| TraceContext.

(** [AppTracer], made by [NewAppTracer] from the instrumentation name. *)
Record AppTracer : Type := NewAppTracer {
  tracerName : string
}.

Section Setup.

(** Span exporters and resources are made by the OpenTelemetry libraries:
    the constructors are parameters, each giving an exporter or an error
    for its arguments ([stdouttrace.New] is always called with the same
    two options).  [resource.New] gives back a resource and an error
    side by side. *)
Context {SpanExporter Resource : Type}.
Context (otlptracegrpc_New : list GrpcOption -> SpanExporter + err).
Context (zipkin_New : string -> SpanExporter + err).
Context (stdouttrace_New : SpanExporter + err).
Context (resource_New : list ResourceOption -> option Resource * error).

(** The options of [tracesdk.NewTracerProvider], and the provider as the
    options it was made from. *)
Inductive TracerProviderOption : Type :=
| WithBatcher (e : SpanExporter)
| WithResource (r : option Resource)
| WithSampler (s : Sampler).

Record TracerProvider : Type := NewTracerProvider {
  providerOptions : list TracerProviderOption
}.

(** A call of one of the exporter constructors. *)
Inductive ExporterCall : Type :=
| GrpcNew (opts : list GrpcOption)
| ZipkinNew (url : string)
| StdoutNew.

(** What the constructor answers to a call. *)
Definition outcome (c : ExporterCall) : SpanExporter + err :=
  match c with
  | GrpcNew opts => otlptracegrpc_New opts
  | ZipkinNew url => zipkin_New url
  | StdoutNew => stdouttrace_New
  end.

(** The process-wide state the set-up works on: the exporter
    constructors called so far, oldest first, and the global tracer
    provider and text-map propagator of [otel], unset at first. *)
Record Otel : Type := {
  created : list ExporterCall;
  globalTracerProvider : option TracerProvider;
  globalTextMapPropagator : option (list Propagator)
}.

(** Computations on [Otel] that give a value or an error; an error ends
    the computation. *)
Definition Tr (A : Type) : Type := Otel -> (A + err) * Otel.

#[local] Instance Tr_ret : MRet Tr := fun A a o => (inl a, o).
#[local] Instance Tr_bind : MBind Tr :=
  fun A B k c o =>
    match c o with
    | (inl a, o') => k a o'
    | (inr e, o') => (inr e, o')
    end.

(** Calling a constructor.  A failure comes back as [errors.WrapIf] of
    the constructor's error and [msg]. *)
Definition construct (c : ExporterCall) (msg : string) : Tr SpanExporter :=
  fun o =>
    let o' := {| created := created o ++ [c];
                 globalTracerProvider := globalTracerProvider o;
                 globalTextMapPropagator := globalTextMapPropagator o |} in
    match outcome c with
    | inl x => (inl x, o')
    | inr e => (inr (Wrapped e msg), o')
    end.

(** The local variables [traceOpts] and [exporters] of
    [configExporters]. *)
Record Locals : Type := {
  traceOpts : list GrpcOption;
  exporters : list SpanExporter
}.

(** The options [configExporters] starts from. *)
Definition defaultOptions : list GrpcOption :=
  [WithTimeout (5 * Second)%Z; WithInsecure].

(** One OTLP exporter over gRPC: the endpoint and the headers are
    appended to [traceOpts], which keeps them, and the exporter made from
    all of [traceOpts] is appended to [exporters]. *)
Definition grpcExporter (endpoint : string) (headers : gmap string string)
    (msg : string) (l : Locals) : Tr Locals :=
  let opts := traceOpts l ++ [WithEndpoint endpoint; WithHeaders headers] in
  x ← construct (GrpcNew opts) msg;
  mret {| traceOpts := opts; exporters := exporters l ++ [x] |}.

Definition zipkinExporter (url : string) (l : Locals) : Tr Locals :=
  x ← construct (ZipkinNew url) "failed to create exporter for zipkin";
  mret {| traceOpts := traceOpts l; exporters := exporters l ++ [x] |}.

Definition stdoutExporter (l : Locals) : Tr Locals :=
  x ← construct StdoutNew "creating stdout exporter";
  mret {| traceOpts := traceOpts l; exporters := exporters l ++ [x] |}.

(** The branch of [configExporters] for [!o.config.UseOTLP]: Jaeger,
    Zipkin, Elastic APM, Uptrace and stdout, each if configured. *)
Definition namedExporters (config : TracingOptions) (l : Locals) : Tr Locals :=
  l ← match JaegerExporterOptions config with
      | Some j =>
          grpcExporter (OTLPEndpoint j) (OTLPHeaders j)
            "failed to create oltptrace exporter for jaeger" l
      | None => mret l
      end;
  l ← match ZipkinExporterOptions config with
      | Some z => zipkinExporter (Url z) l
      | None => mret l
      end;
  l ← match ElasticApmExporterOptions config with
      | Some a =>
          grpcExporter (OTLPEndpoint a) (OTLPHeaders a)
            "failed to create oltptrace exporter for elastic-apm" l
      | None => mret l
      end;
  l ← match UptraceExporterOptions config with
      | Some u =>
          grpcExporter (OTLPEndpoint u) (OTLPHeaders u)
            "failed to create oltptrace exporter for uptrace" l
      | None => mret l
      end;
  if UseStdout config then stdoutExporter l else mret l.

(** The other branch: the loop over [o.config.OTLPProviders], which skips
    the providers that are not enabled. *)
Fixpoint otlpProviders (providers : list OTLPProvider) (l : Locals)
    : Tr Locals :=
  match providers with
  | [] => mret l
  | p :: rest =>
      if negb (Enabled p) then otlpProviders rest l
      else
        l' ← grpcExporter (provider_OTLPEndpoint p) (provider_OTLPHeaders p)
               "failed to create otlptracegrpc exporter" l;
        otlpProviders rest l'
  end.

Definition configExporters (config : TracingOptions)
    : Tr (list SpanExporter) :=
  let l := {| traceOpts := defaultOptions; exporters := [] |} in
  l ← (if negb (UseOTLP config) then namedExporters config l
       else otlpProviders (OTLPProviders config) l);
  mret (exporters l).

(** [newResource]: the resource and the error of [resource.New], as they
    come. *)
Definition newResource (config : TracingOptions) (environment : string)
    : option Resource * error :=
  resource_New
    [WithFromEnv; WithTelemetrySDK; WithHost; WithOS;
     WithSchemaURL semconv_SchemaURL;
     WithAttributes
       [semconv_ServiceName (ServiceName config);
        semconv_ServiceVersion (Version config);
        ("ID", Int64Value (Id config));
        ("environment", StringValue environment);
        semconv_TelemetrySDKVersion "v1.21.0";
        semconv_TelemetrySDKLanguageGo]].

(** The struct [TracingOpenTelemetry]; [appTracer] and [provider] are nil
    until set. *)
Record TracingOpenTelemetry : Type := {
  config : TracingOptions;
  environment : string;
  appTracer : option AppTracer;
  provider : option TracerProvider
}.

(** [initTracer]: the receiver is changed in place, so it is handed back
    beside the result. *)
Definition initTracer (o : TracingOpenTelemetry) (resource : option Resource)
    (g : Otel) : ((AppTracer + err) * TracingOpenTelemetry) * Otel :=
  match configExporters (config o) g with
  | (inr e, g') => ((inr e, o), g')
  | (inl exps, g') =>
      let sampler :=
        if AlwaysOnSampler (config o) then AlwaysSample else NeverSample in
      let batchExporters := WithBatcher <$> exps in
      let opts := batchExporters ++ [WithResource resource; WithSampler sampler] in
      let tracerProvider := NewTracerProvider opts in
      ((inl (NewAppTracer (InstrumentationName (config o))),
        {| config := config o; environment := environment o;
           appTracer := appTracer o; provider := Some tracerProvider |}),
       {| created := created g';
          globalTracerProvider := Some tracerProvider;
          globalTextMapPropagator := Some [OT; Baggage; TraceContext] |})
  end.

Definition NewOtelTracing (cfg : TracingOptions) (env : string) (g : Otel)
    : (TracingOpenTelemetry + err) * Otel :=
  let otelTracing :=
    {| config := cfg; environment := env; appTracer := None;
       provider := None |} in
  match newResource cfg env with
  | (_, Some e) => (inr (Wrapped e "failed to create resource"), g)
  | (resource, None) =>
      match initTracer otelTracing resource g with
      | ((inr e, _), g') => (inr e, g')
      | ((inl tracer, o), g') =>
          (inl {| config := config o; environment := environment o;
                  appTracer := Some tracer; provider := provider o |},
           g')
      end
  end.

(** The option lists of the gRPC constructor calls among [cs]. *)
Definition grpcOptions (cs : list ExporterCall) : list (list GrpcOption) :=
  omap (fun c => match c with GrpcNew opts => Some opts | _ => None end) cs.

(** The endpoint and headers options of an exporter, if configured. *)
Definition optionsOf (o : option OTLPExporterOptions) : list GrpcOption :=
  match o with
  | Some x => [WithEndpoint (OTLPEndpoint x); WithHeaders (OTLPHeaders x)]
  | None => []
  end.

Definition providerOptionsOf (p : OTLPProvider) : list GrpcOption :=
  [WithEndpoint (provider_OTLPEndpoint p); WithHeaders (provider_OTLPHeaders p)].

(** The constructor calls a configuration without [UseOTLP] stands for,
    in the order in which [configExporters] makes them. *)
Definition namedCalls (config : TracingOptions) : list ExporterCall :=
  let j := optionsOf (JaegerExporterOptions config) in
  let a := optionsOf (ElasticApmExporterOptions config) in
  let u := optionsOf (UptraceExporterOptions config) in
  match JaegerExporterOptions config with
  | Some _ => [GrpcNew (defaultOptions ++ j)]
  | None => []
  end
  ++ match ZipkinExporterOptions config with
     | Some z => [ZipkinNew (Url z)]
     | None => []
     end
  ++ match ElasticApmExporterOptions config with
     | Some _ => [GrpcNew (defaultOptions ++ j ++ a)]
     | None => []
     end
  ++ match UptraceExporterOptions config with
     | Some _ => [GrpcNew (defaultOptions ++ j ++ a ++ u)]
     | None => []
     end
  ++ (if UseStdout config then [StdoutNew] else []).

(** What a stretch of [configExporters] that started with the locals [l0]
    in state [o0] and ended with [r] in state [o] has done: it called
    constructors and touched nothing else; its gRPC calls each extend the
    options it started from and each the one before; if it went through,
    every call gave an exporter and these were appended to [exporters] in
    order, and [traceOpts] extends the options of every gRPC call; if it
    failed, the last call is the one that failed, and the error is that
    call's error with a message. *)
Definition Ran (l0 : Locals) (o0 : Otel) (r : Locals + err) (o : Otel)
    : Prop :=
  exists new : list ExporterCall,
    created o = created o0 ++ new /\
    globalTracerProvider o = globalTracerProvider o0 /\
    globalTextMapPropagator o = globalTextMapPropagator o0 /\
    Forall (fun g => traceOpts l0 `prefix_of` g) (grpcOptions new) /\
    StronglySorted prefix (grpcOptions new) /\
    match r with
    | inl l =>
        traceOpts l0 `prefix_of` traceOpts l /\
        Forall (fun g => g `prefix_of` traceOpts l) (grpcOptions new) /\
        exists xs, exporters l = exporters l0 ++ xs /\
                   outcome <$> new = inl <$> xs
    | inr e =>
        exists pre call cause msg,
          new = pre ++ [call] /\
          Forall (fun c => exists x, outcome c = inl x) pre /\
          outcome call = inr cause /\
          e = Wrapped cause msg
    end.

End Setup.

Arguments TracerProviderOption : clear implicits.
Arguments TracerProvider : clear implicits.
Arguments Otel : clear implicits.
Arguments Locals : clear implicits.
Arguments TracingOpenTelemetry : clear implicits.

(** Nothing set up yet. *)
Definition freshOtel {SpanExporter Resource : Type}
    : Otel SpanExporter Resource :=
  {| created := []; globalTracerProvider := None;
     globalTextMapPropagator := None |}.

(** Constructors for experiments: an exporter is the text of its
    endpoint; the gRPC constructor refuses an option list whose last
    endpoint is empty, Zipkin refuses an empty URL. *)
Fixpoint lastEndpoint (opts : list GrpcOption) (seen : string) : string :=
  match opts with
  | [] => seen
  | WithEndpoint e :: rest => lastEndpoint rest e
  | _ :: rest => lastEndpoint rest seen
  end.

Definition demo_grpc (opts : list GrpcOption) : string + err :=
  if decide (lastEndpoint opts "" = "") then inr (New "no endpoint")
  else inl ("grpc:" ++ lastEndpoint opts "")%string.

Definition demo_zipkin (url : string) : string + err :=
  if decide (url = "") then inr (New "invalid collector URL")
  else inl ("zipkin:" ++ url)%string.

Definition demo_stdout : string + err := inl "stdout".

Definition demo_resource (opts : list ResourceOption) : option unit * error :=
  (Some tt, nil).

Definition collector (endpoint : string) (enabled : bool) : OTLPProvider :=
  {| Enabled := enabled; provider_OTLPEndpoint := endpoint;
     provider_OTLPHeaders := ∅ |}.

Definition demoOptions : TracingOptions :=
  {| ServiceName := "orders"; Version := "1.0"; Id := 1;
     InstrumentationName := "orders-tracer"; AlwaysOnSampler := true;
     UseOTLP := false; UseStdout := true;
     JaegerExporterOptions :=
       Some {| OTLPEndpoint := "jaeger:4317"; OTLPHeaders := ∅ |};
     ZipkinExporterOptions := Some {| Url := "http://zipkin:9411" |};
     ElasticApmExporterOptions :=
       Some {| OTLPEndpoint := "apm:8200"; OTLPHeaders := ∅ |};
     UptraceExporterOptions := None;
     OTLPProviders :=
       [collector "a:4317" true; collector "b:4317" false;
        collector "c:4317" true] |}.

Definition demoOtlpOptions : TracingOptions :=
  {| ServiceName := "orders"; Version := "1.0"; Id := 1;
     InstrumentationName := "orders-tracer"; AlwaysOnSampler := false;
     UseOTLP := true; UseStdout := true;
     JaegerExporterOptions :=
       Some {| OTLPEndpoint := "jaeger:4317"; OTLPHeaders := ∅ |};
     ZipkinExporterOptions := None;
     ElasticApmExporterOptions := None;
     UptraceExporterOptions := None;
     OTLPProviders :=
       [collector "a:4317" true; collector "b:4317" false;
        collector "c:4317" true] |}.

(** A configuration whose Zipkin URL is missing. *)
Definition brokenOptions : TracingOptions :=
  {| ServiceName := "orders"; Version := "1.0"; Id := 1;
     InstrumentationName := "orders-tracer"; AlwaysOnSampler := true;
     UseOTLP := false; UseStdout := true;
     JaegerExporterOptions :=
       Some {| OTLPEndpoint := "jaeger:4317"; OTLPHeaders := ∅ |};
     ZipkinExporterOptions := Some {| Url := "" |};
     ElasticApmExporterOptions :=
       Some {| OTLPEndpoint := "apm:8200"; OTLPHeaders := ∅ |};
     UptraceExporterOptions := None;
     OTLPProviders := [] |}.

End Tracing.

(** ** The orders service configurator *)

Module OrdersService.
Import Errors.

(** [errors.WithMessage(err, msg)]: nil stays nil, anything else gets the
    message.  (The stack trace that tells it from [errors.WrapIf] is not
    kept in this model of errors.) *)
Definition WithMessage (e : error) (msg : string) : error :=
  match e with
  | None => None
  | Some c => Some (Wrapped c msg)
  end.

Section Configurator.

(** The servers, the metrics, the bus and the worker are made by other
    packages: their types are parameters, and so are the constructors that
    can fail, each giving its value or its error. *)
Context {GrpcServer EchoHttpServer OrdersMetrics Bus Worker : Type}.
Context (NewGrpcServer : GrpcServer).
Context (NewEchoHttpServer : EchoHttpServer).
Context (GetMicroserviceNameUpper : string).
Context (ConfigOrdersMetrics : OrdersMetrics + err).
Context (ConfigOrdersRabbitMQ : Bus + err).
Context (ConfigOrdersSubscriptionAllWorker : Bus -> Worker + err).
Context (ConfigureOrdersModule : OrdersMetrics -> Bus -> error).

(** [contracts.OrderServiceConfigurations]; a field is nil until set. *)
Record OrderServiceConfigurations : Type := {
  OrdersGrpcServer : option GrpcServer;
  OrdersEchoServer : option EchoHttpServer;
  OrdersMetrics_ : option OrdersMetrics;
  OrdersBus : option Bus;
  OrdersSubscriptionAllWorker : option Worker
}.

(** What the configurator does to the world outside, in order. *)
Inductive Step : Type :=
| MadeGrpcServer
| MadeEchoServer
| SetupDefaultMiddlewares
| RegisteredRoute (path : string) (status : Z) (body : string)
| ConfiguredSwagger
| ConfiguredMetrics
| ConfiguredRabbitMQ
| ConfiguredSubscriptionAllWorker (bus : Bus)
| MadeModuleConfigurator (metrics : OrdersMetrics) (bus : Bus)
| ConfiguredOrdersModule.

(** Computations that log their steps and end at the first error. *)
Definition Cf (A : Type) : Type := list Step -> (A + err) * list Step.

#[local] Instance Cf_ret : MRet Cf := fun A a t => (inl a, t).
#[local] Instance Cf_bind : MBind Cf :=
  fun A B k c t =>
    match c t with
    | (inl a, t') => k a t'
    | (inr e, t') => (inr e, t')
    end.

(** A step that cannot fail, and one that can. *)
Definition did {A : Type} (s : Step) (a : A) : Cf A :=
  fun t => (inl a, t ++ [s]).

Definition tried {A : Type} (s : Step) (r : A + err) : Cf A :=
  fun t => (r, t ++ [s]).

(** The module configurator's [ConfigureOrdersModule], whose error comes
    back with a message. *)
Definition configureModule (metrics : OrdersMetrics) (bus : Bus) : Cf unit :=
  fun t =>
    match WithMessage (ConfigureOrdersModule metrics bus)
            "[ordersServiceConfigurator_ConfigureOrdersService.NewOrdersModuleConfigurator] error in order module configurator" with
    | Some e => (inr e, t ++ [ConfiguredOrdersModule])
    | None => (inl tt, t ++ [ConfiguredOrdersModule])
    end.

Definition ConfigureOrdersService : Cf OrderServiceConfigurations :=
  grpc ← did MadeGrpcServer NewGrpcServer;
  echo ← did MadeEchoServer NewEchoHttpServer;
  _ ← did SetupDefaultMiddlewares tt;
  _ ← did (RegisteredRoute "" 200
             (GetMicroserviceNameUpper ++ " is running...")%string) tt;
  _ ← did ConfiguredSwagger tt;
  ordersMetrics ← tried ConfiguredMetrics ConfigOrdersMetrics;
  bus ← tried ConfiguredRabbitMQ ConfigOrdersRabbitMQ;
  esdbWorker ←
    tried (ConfiguredSubscriptionAllWorker bus)
      (ConfigOrdersSubscriptionAllWorker bus);
  _ ← did (MadeModuleConfigurator ordersMetrics bus) tt;
  _ ← configureModule ordersMetrics bus;
  mret {| OrdersGrpcServer := Some grpc; OrdersEchoServer := Some echo;
          OrdersMetrics_ := Some ordersMetrics; OrdersBus := Some bus;
          OrdersSubscriptionAllWorker := Some esdbWorker |}.

(** The steps before the first that can fail. *)
Definition preamble : list Step :=
  [MadeGrpcServer; MadeEchoServer; SetupDefaultMiddlewares;
   RegisteredRoute "" 200 (GetMicroserviceNameUpper ++ " is running...")%string;
   ConfiguredSwagger].

End Configurator.

Arguments OrderServiceConfigurations : clear implicits.
Arguments Step : clear implicits.

(** A worker that cannot be bound to the bus "down". *)
Definition demo_worker (bus : string) : string + err :=
  if decide (bus = "down") then inr (New "subscription failed")
  else inl ("worker on " ++ bus)%string.

Definition demo_module (metrics bus : string) : error :=
  if decide (metrics = "") then Some (New "no metrics") else nil.

End OrdersService.

(** * Properties *)

Module ProjectionSpec.
Import Errors Projection.

Section Generic.

Context {ShopItem ShopItemReadModel Store : Type}.
Context (mapper_Map : list ShopItem -> list ShopItemReadModel + err).
Context (uuid_source : nat -> UUID).
Context (m : mongoOrderProjection ShopItemReadModel Store).

#[local] Abbreviation process := (ProcessEvent mapper_Map uuid_source m).
#[local] Abbreviation handle := (onOrderCreated mapper_Map uuid_source m).
#[local] Abbreviation World := (World ShopItemReadModel Store).

(** The read model built for [evt] under document id [id] from the mapped
    [items]. *)
#[local] Abbreviation document evt id items :=
  (NewOrderReadModel id (evt_OrderId evt) items (evt_AccountEmail evt)
     (evt_DeliveryAddress evt) (evt_DeliveredTime evt)).

Lemma process_unrecognised (se : StreamEvent ShopItem) (w : World) :
  is_OrderCreatedEventV1 (Event se) = false -> process se w = (nil, w).
Proof.
  unfold ProcessEvent. destruct (Event se); simpl; intros H.
  - discriminate H.
  - reflexivity.
  - reflexivity.
Qed.

Lemma handle_map_error (evt : OrderCreatedEventV1 ShopItem) (w : World) e :
  mapper_Map (evt_ShopItems evt) = inr e ->
  handle evt w =
    (Some (Wrapped e
       "[mongoOrderProjection_onOrderCreated.Map] error in mapping shopItems"),
     w).
Proof. intros H. unfold onOrderCreated. rewrite H. reflexivity. Qed.

Lemma handle_mapped (evt : OrderCreatedEventV1 ShopItem) (w : World) items :
  mapper_Map (evt_ShopItems evt) = inl items ->
  let doc := document evt (uuid_source (drawn w)) items in
  let out := CreateOrder (mongoOrderRepository m) doc (store w) in
  handle evt w =
    (match fst out with
     | inl _ => nil
     | inr e => Some (Wrapped e
         "[mongoOrderProjection_onOrderCreated.CreateOrder] error in creating order with mongoOrderRepository")
     end,
     {| store := snd out; drawn := S (drawn w);
        calls := calls w ++ [CallCreateOrder doc] |}).
Proof.
  intros H. unfold onOrderCreated. rewrite H.
  unfold mbind, mret, M_bind, M_ret, uuid_NewV4, repo_CreateOrder. simpl.
  destruct (CreateOrder _ _ _) as [[stored | e] s']; reflexivity.
Qed.

(** C4: an envelope whose event is not an [OrderCreatedEventV1] (another
    event type, or no event at all) makes [ProcessEvent] return nil, not an
    error. *)
Theorem ProcessEvent_unrecognised_returns_nil
    (se : StreamEvent ShopItem) (w : World) :
  is_OrderCreatedEventV1 (Event se) = false ->
  fst (process se w) = nil.
Proof. intros H. rewrite (process_unrecognised se w H). reflexivity. Qed.

(** C10: for an envelope whose event is not an [OrderCreatedEventV1],
    [ProcessEvent] makes no call on the order read repository, and the read
    store (indeed everything the projection can touch) is left as it
    was. *)
Theorem ProcessEvent_unrecognised_frame
    (se : StreamEvent ShopItem) (w : World) :
  is_OrderCreatedEventV1 (Event se) = false ->
  calls (snd (process se w)) = calls w /\
  store (snd (process se w)) = store w /\
  snd (process se w) = w.
Proof.
  intros H. rewrite (process_unrecognised se w H). simpl. auto.
Qed.

(** C9: when the shop items of an [OrderCreatedEventV1] fail to map,
    [onOrderCreated] returns a non-nil error, makes no call on the order
    read repository, and leaves the read store unchanged. *)
Theorem onOrderCreated_mapping_error
    (evt : OrderCreatedEventV1 ShopItem) (w : World) (e : err) :
  mapper_Map (evt_ShopItems evt) = inr e ->
  fst (handle evt w) <> nil /\
  calls (snd (handle evt w)) = calls w /\
  store (snd (handle evt w)) = store w.
Proof.
  intros H. rewrite (handle_map_error evt w e H). simpl.
  split; [discriminate | auto].
Qed.

(** C5: when [ProcessEvent] returns nil for an [OrderCreatedEventV1]
    envelope, and the repository keeps its contract (a [CreateOrder] that
    succeeds has stored the document), the read store holds a read model
    with the event's order id, whose items are the event's items as mapped
    to the read-model item type, and whose account email, delivery address
    and delivered time are the event's; it is the one document the
    projection asked the repository to create. *)
Theorem ProcessEvent_created_order_is_stored
    (holds : Store -> OrderReadModel ShopItemReadModel -> Prop)
    (se : StreamEvent ShopItem) (evt : OrderCreatedEventV1 ShopItem)
    (w : World) :
  RepositoryContract (mongoOrderRepository m) holds ->
  Event se = EvOrderCreatedV1 evt ->
  fst (process se w) = nil ->
  exists doc : OrderReadModel ShopItemReadModel,
    holds (store (snd (process se w))) doc /\
    OrderId doc = evt_OrderId evt /\
    mapper_Map (evt_ShopItems evt) = inl (ShopItems doc) /\
    AccountEmail doc = evt_AccountEmail evt /\
    DeliveryAddress doc = evt_DeliveryAddress evt /\
    DeliveredTime doc = evt_DeliveredTime evt /\
    calls (snd (process se w)) = calls w ++ [CallCreateOrder doc].
Proof.
  intros Hrepo Hev. unfold ProcessEvent. rewrite Hev.
  destruct (mapper_Map (evt_ShopItems evt)) as [items | e] eqn:Hmap.
  - rewrite (handle_mapped evt w items Hmap). cbn zeta.
    destruct (CreateOrder _ _ _) as [[stored | e] s'] eqn:Hcreate;
      simpl; intros Hnil; [| discriminate Hnil].
    eexists. split.
    + eapply (CreateOrder_stores _ _ Hrepo). exact Hcreate.
    + simpl. repeat split; reflexivity.
  - rewrite (handle_map_error evt w e Hmap). simpl. discriminate.
Qed.

(** C1, as amended: processing an envelope twice leaves the same state as
    processing it once when its event is not an [OrderCreatedEventV1] and
    when the items of its [OrderCreatedEventV1] fail to map (in both cases
    the state is the one before).  For an [OrderCreatedEventV1] whose items
    map, every processing draws the next document id and asks the
    repository to create one more read model: after one processing the
    repository has been asked once, after two it has been asked twice, for
    two documents that differ only in their document id. *)
Theorem ProcessEvent_twice
    (se : StreamEvent ShopItem) (w : World) :
  (is_OrderCreatedEventV1 (Event se) = false ->
   twice mapper_Map uuid_source m se w = once mapper_Map uuid_source m se w /\
   once mapper_Map uuid_source m se w = w) /\
  (forall evt e,
     Event se = EvOrderCreatedV1 evt ->
     mapper_Map (evt_ShopItems evt) = inr e ->
     twice mapper_Map uuid_source m se w = once mapper_Map uuid_source m se w /\
     once mapper_Map uuid_source m se w = w) /\
  (forall evt items,
     Event se = EvOrderCreatedV1 evt ->
     mapper_Map (evt_ShopItems evt) = inl items ->
     calls (once mapper_Map uuid_source m se w) =
       calls w ++ [CallCreateOrder (document evt (uuid_source (drawn w)) items)] /\
     calls (twice mapper_Map uuid_source m se w) =
       calls w ++
         [CallCreateOrder (document evt (uuid_source (drawn w)) items);
          CallCreateOrder (document evt (uuid_source (S (drawn w))) items)]).
Proof.
  unfold twice, once. split; [| split].
  - intros H. rewrite (process_unrecognised se w H). simpl.
    rewrite (process_unrecognised se w H). auto.
  - intros evt e Hev Hmap. unfold ProcessEvent. rewrite Hev.
    rewrite (handle_map_error evt w e Hmap). simpl.
    rewrite (handle_map_error evt w e Hmap). auto.
  - intros evt items Hev Hmap. unfold ProcessEvent. rewrite Hev.
    rewrite (handle_mapped evt w items Hmap). cbn zeta. simpl.
    split; [reflexivity |].
    rewrite (handle_mapped evt _ items Hmap). cbn zeta. simpl.
    rewrite <- app_assoc. reflexivity.
Qed.

End Generic.

(** The scenario of the specification on the in-memory repository: one
    delivery of the order-7 envelope stores one read model, a second
    delivery stores a second one under the next document id. *)
Example envelope7_delivered_once :
  store (once configured_Map counting_source memProjection envelope7 emptyWorld)
  = [NewOrderReadModel 0%N 7%N ["A"; "B"] "customer@example.org" "1 Main Street"
       1700000000%Z].
Proof. reflexivity. Qed.

Example envelope7_delivered_twice :
  store (twice configured_Map counting_source memProjection envelope7 emptyWorld)
  = [NewOrderReadModel 0%N 7%N ["A"; "B"] "customer@example.org" "1 Main Street"
       1700000000%Z;
     NewOrderReadModel 1%N 7%N ["A"; "B"] "customer@example.org" "1 Main Street"
       1700000000%Z].
Proof. reflexivity. Qed.

(** When the store is down the error of the repository comes back
    wrapped. *)
Example envelope7_store_down :
  fst (ProcessEvent configured_Map counting_source
         (NewMongoOrderProjection downRepository) envelope7 emptyWorld)
  = Some (Wrapped (New "storage unavailable")
      "[mongoOrderProjection_onOrderCreated.CreateOrder] error in creating order with mongoOrderRepository").
Proof. reflexivity. Qed.

(** The in-memory repository keeps the repository contract. *)
Lemma memRepository_contract : RepositoryContract memRepository memHolds.
Proof.
  constructor. intros d s stored s'. simpl. unfold memCreateOrder, memHolds.
  destruct (existsb _ s); intros H; inversion H; subst.
  apply in_or_app. right. left. reflexivity.
Qed.

Lemma ProcessEvent_unrecognised_returns_nil_witness :
  fst (ProcessEvent configured_Map counting_source memProjection
         envelopeShipped emptyWorld) = nil.
Proof.
  apply (ProcessEvent_unrecognised_returns_nil configured_Map counting_source
           memProjection envelopeShipped emptyWorld).
  reflexivity.
Defined.

Lemma ProcessEvent_unrecognised_frame_witness :
  let w' := snd (ProcessEvent configured_Map counting_source memProjection
                   envelopeShipped emptyWorld) in
  calls w' = calls emptyWorld /\ store w' = store emptyWorld /\ w' = emptyWorld.
Proof.
  apply (ProcessEvent_unrecognised_frame configured_Map counting_source
           memProjection envelopeShipped emptyWorld).
  reflexivity.
Defined.

Lemma onOrderCreated_mapping_error_witness :
  let out := onOrderCreated unconfigured_Map counting_source memProjection
               orderCreated7 emptyWorld in
  fst out <> nil /\ calls (snd out) = calls emptyWorld /\
  store (snd out) = store emptyWorld.
Proof.
  apply (onOrderCreated_mapping_error unconfigured_Map counting_source
           memProjection orderCreated7 emptyWorld
           (New "no mapping registered for the given types")).
  reflexivity.
Defined.

Lemma ProcessEvent_created_order_is_stored_witness :
  let w' := snd (ProcessEvent configured_Map counting_source memProjection
                   envelope7 emptyWorld) in
  exists doc : OrderReadModel string,
    memHolds (store w') doc /\
    OrderId doc = 7%N /\
    configured_Map ["A"; "B"] = inl (ShopItems doc) /\
    AccountEmail doc = "customer@example.org" /\
    DeliveryAddress doc = "1 Main Street" /\
    DeliveredTime doc = 1700000000%Z /\
    calls w' = calls emptyWorld ++ [CallCreateOrder doc].
Proof.
  apply (ProcessEvent_created_order_is_stored configured_Map counting_source
           memProjection memHolds envelope7 orderCreated7 emptyWorld).
  - exact memRepository_contract.
  - reflexivity.
  - reflexivity.
Defined.

(** C1 as the specification states it fails: with the in-memory
    repository, delivering the order-7 envelope a second time leaves two
    read models where one delivery leaves one. *)
Lemma ProcessEvent_not_idempotent :
  ~ idempotent_at configured_Map counting_source memProjection
      envelope7 emptyWorld.
Proof. unfold idempotent_at. vm_compute. discriminate. Qed.

Lemma ProcessEvent_twice_witness :
  (twice configured_Map counting_source memProjection envelopeShipped emptyWorld
   = once configured_Map counting_source memProjection envelopeShipped emptyWorld
   /\ once configured_Map counting_source memProjection envelopeShipped emptyWorld
      = emptyWorld) /\
  length (calls (twice configured_Map counting_source memProjection
                   envelope7 emptyWorld)) = 2.
Proof.
  pose proof (ProcessEvent_twice configured_Map counting_source memProjection
                envelopeShipped emptyWorld) as [Hother _].
  pose proof (ProcessEvent_twice configured_Map counting_source memProjection
                envelope7 emptyWorld) as [_ [_ Hcreated]].
  split.
  - apply Hother. reflexivity.
  - destruct (Hcreated orderCreated7 ["A"; "B"] eq_refl eq_refl) as [_ H2].
    rewrite H2. reflexivity.
Defined.

End ProjectionSpec.

Module MediatrSpec.
Import Errors Mediatr.

Section Registry.

Context {Request Response : Type}.

#[local] Abbreviation Registry := (Registry Request Response).
#[local] Abbreviation Handler := (Handler Request Response).

Lemma RegisterHandler_taken (t : string) (h h' : Handler) (reg : Registry) :
  handlers reg !! t = Some h ->
  fst (RegisterHandler t h' reg) <> nil /\ snd (RegisterHandler t h' reg) = reg.
Proof.
  intros Hreg. unfold RegisterHandler. rewrite Hreg. simpl.
  split; [discriminate | reflexivity].
Qed.

Lemma RegisterHandler_ok (t : string) (h : Handler) (reg reg' : Registry) :
  RegisterHandler t h reg = (nil, reg') ->
  handlers reg !! t = None /\
  handlers reg' = <[t := h]> (handlers reg) /\
  behaviors reg' = behaviors reg.
Proof.
  unfold RegisterHandler. destruct (handlers reg !! t) eqn:Hreg.
  - discriminate.
  - intros H. inversion H. subst. simpl. auto.
Qed.

(** A startup that went through registered every type once, on top of
    what the registry held before. *)
Lemma configure_ok (regs : list (string * Handler)) :
  forall reg0 reg : Registry,
    configure regs reg0 = (nil, reg) ->
    NoDup (regs.*1) /\
    (forall t, t ∈ regs.*1 -> handlers reg0 !! t = None) /\
    behaviors reg = behaviors reg0 /\
    (forall t h, handlers reg !! t = Some h <->
                 (t, h) ∈ regs \/ handlers reg0 !! t = Some h).
Proof.
  induction regs as [| [t0 h0] later IH]; intros reg0 reg; simpl.
  - intros H. inversion H. subst. split; [constructor |].
    split; [intros t Ht; inversion Ht |]. split; [reflexivity |].
    intros t h. split; [auto |]. intros [Hin | Hreg]; [inversion Hin | exact Hreg].
  - destruct (RegisterHandler t0 h0 reg0) as [[e |] reg1] eqn:Hfirst;
      [discriminate |].
    destruct (RegisterHandler_ok _ _ _ _ Hfirst) as (Hfree & Hh & Hb).
    intros Hrest. destruct (IH _ _ Hrest) as (Hnodup & Hfresh & Hbeh & Hiff).
    assert (Hlater : forall t, t ∈ later.*1 -> t <> t0 /\ handlers reg0 !! t = None).
    { intros t Ht. specialize (Hfresh t Ht). rewrite Hh in Hfresh.
      destruct (decide (t0 = t)) as [-> | Hne].
      - rewrite lookup_insert_eq in Hfresh. discriminate.
      - rewrite lookup_insert_ne in Hfresh by exact Hne. auto. }
    split; [| split; [| split]].
    + constructor; [| exact Hnodup].
      intros Hin. destruct (Hlater _ Hin) as [Hne _]. congruence.
    + intros t Ht. apply elem_of_cons in Ht as [-> | Ht]; [exact Hfree |].
      apply (Hlater t Ht).
    + congruence.
    + intros t h. rewrite Hiff, Hh, elem_of_cons.
      destruct (decide (t0 = t)) as [-> | Hne].
      * rewrite lookup_insert_eq, Hfree. split.
        -- intros [Hin | Heq]; [| left; left; congruence].
           exfalso. apply (Hlater t); [| reflexivity].
           apply list_elem_of_fmap. exists (t, h). auto.
        -- intros [[Heq | Hin] | Hno]; [right; congruence | left; exact Hin | discriminate].
      * rewrite lookup_insert_ne by exact Hne. split.
        -- intros [Hin | Hreg]; [left; right; exact Hin | right; exact Hreg].
        -- intros [[Heq | Hin] | Hreg]; [congruence | left; exact Hin | right; exact Hreg].
Qed.

(** C7: once a handler is registered for a request type, registering
    another one for that type fails there and then, and leaves the
    registry as it was; a startup that registers some type twice fails;
    and after a startup that went through, every registered type has
    exactly one handler, the one [Send] dispatches to. *)
Theorem handler_uniqueness :
  (forall (t : string) (h1 h2 : Handler) (reg reg1 : Registry),
     RegisterHandler t h1 reg = (nil, reg1) ->
     fst (RegisterHandler t h2 reg1) <> nil /\
     snd (RegisterHandler t h2 reg1) = reg1) /\
  (forall regs : list (string * Handler),
     ~ NoDup (regs.*1) -> fst (configure regs emptyRegistry) <> nil) /\
  (forall (regs : list (string * Handler)) (reg : Registry),
     configure regs emptyRegistry = (nil, reg) ->
     forall (t : string) (h : Handler),
       (t, h) ∈ regs ->
       (forall h' : Handler, (t, h') ∈ regs -> h' = h) /\
       handlers reg !! t = Some h /\
       forall request, Send t request reg = h request).
Proof.
  split; [| split].
  - intros t h1 h2 reg reg1 Hfirst.
    destruct (RegisterHandler_ok _ _ _ _ Hfirst) as (_ & Hh & _).
    apply (RegisterHandler_taken t h1 h2 reg1).
    rewrite Hh. apply lookup_insert_eq.
  - intros regs Hdup.
    destruct (configure regs emptyRegistry) as [[e |] reg] eqn:Hcfg.
    + simpl. discriminate.
    + exfalso. apply Hdup. apply (configure_ok regs _ _ Hcfg).
  - intros regs reg Hcfg t h Hin.
    destruct (configure_ok regs _ _ Hcfg) as (_ & _ & Hbeh & Hiff).
    assert (Hh : handlers reg !! t = Some h) by (apply Hiff; auto).
    split; [| split].
    + intros h' Hin'. assert (handlers reg !! t = Some h') by (apply Hiff; auto).
      congruence.
    + exact Hh.
    + intros request. unfold Send. rewrite Hh, Hbeh. reflexivity.
Qed.

End Registry.

Lemma handler_uniqueness_witness :
  fst (RegisterHandler "CreateProduct" deleteProduct
         (snd (RegisterHandler "CreateProduct" createProduct emptyRegistry)))
    <> nil /\
  Send "DeleteProduct" "42" (snd (configure productRegistrations emptyRegistry))
    = deleteProduct "42".
Proof.
  destruct (@handler_uniqueness string string) as (Hsecond & _ & Hsend).
  split.
  - apply (Hsecond "CreateProduct" createProduct deleteProduct emptyRegistry).
    reflexivity.
  - apply (Hsend productRegistrations _ eq_refl "DeleteProduct" deleteProduct).
    apply list_elem_of_further, list_elem_of_here.
Defined.

End MediatrSpec.

Module UowSpec.
Import Errors Messaging Uow.

Section UnitOfWork.

Context {Db Result : Type}.
Context (id_source : nat -> N) (retries : nat).

#[local] Abbreviation World := (UowWorld Db).
#[local] Abbreviation Action := (Action Db Result).
#[local] Abbreviation run := (Do id_source retries).
#[local] Abbreviation outcome := (@actionOutcome Db Result).

(** [Do] when the action fails: begin, run, roll back. *)
Lemma Do_failed (action : Action) (w : World) result e tx' :
  outcome action w = ((result, Some e), tx') ->
  run action w =
    ((result, Some e),
     {| durable := durable w; messaging := messaging w;
        steps := steps w ++ [Began; ActionRan; RolledBack] |}).
Proof.
  unfold actionOutcome, Do. intros H.
  unfold mbind, mret, UowM_bind, UowM_ret, beginTx, runAction, rollback, record.
  simpl. rewrite H. simpl. rewrite <- !app_assoc. reflexivity.
Qed.

(** [Do] when the action succeeds: begin, run, commit, hand over. *)
Lemma Do_succeeded (action : Action) (w : World) result tx' :
  outcome action w = ((result, nil), tx') ->
  let published := Publish id_source (raised tx') retries (messaging w) in
  run action w =
    ((result,
      WrapIf (fst published) "events were not published after the commit"),
     {| durable := working tx'; messaging := snd published;
        steps := steps w ++
          [Began; ActionRan; Committed; HandedToPublisher (raised tx')] |}).
Proof.
  unfold actionOutcome, Do. intros H.
  unfold mbind, mret, UowM_bind, UowM_ret, beginTx, runAction, commit, handOver,
    record.
  simpl. rewrite H. simpl.
  destruct (Publish _ _ _ _) as [pe mw]. simpl.
  rewrite <- !app_assoc. reflexivity.
Qed.

(** In the steps of a unit of work that went through, the hand-over to
    the publisher comes after the commit. *)
Lemma committed_first (batch batch' : list DomainEvent) :
  Precedes Committed (HandedToPublisher batch)
    [Began; ActionRan; Committed; HandedToPublisher batch'].
Proof.
  intros l1 l2 H.
  destruct l1 as [| s1 [| s2 [| s3 [| s4 l1]]]]; simpl in H;
    try discriminate H.
  - inversion H. subst. apply list_elem_of_further, list_elem_of_further,
      list_elem_of_here.
  - inversion H. destruct l1; discriminate.
Qed.

Lemma no_hand_over_on_rollback (batch : list DomainEvent) :
  Precedes Committed (HandedToPublisher batch) [Began; ActionRan; RolledBack].
Proof.
  intros l1 l2 H.
  destruct l1 as [| s1 [| s2 [| s3 l1]]]; simpl in H; try discriminate H.
  inversion H. destruct l1; discriminate.
Qed.

(** C3: every [Do] begins a transaction before the action runs, and the
    action works on a copy of what the store holds at that moment.  It
    commits exactly when the action returns no error and rolls back
    exactly when it returns one.  When the action returns no error, the
    commit makes the action's changes the durable content of the store,
    the steps after the action are the commit and the hand-over of the
    events the action raised, and the caller gets the action's result.
    When the action returns an error, the steps after the action are the
    rollback alone: the durable store and the publisher's world (the bus
    included) are what they were, whatever the action did to its working
    copy, nothing is handed to the publisher, and the caller gets the
    action's error. *)
Theorem Do_commits_or_rolls_back (action : Action) (w : World) :
  let failure := snd (fst (outcome action w)) in
  let w' := snd (run action w) in
  outcome action w = action {| working := durable w; raised := [] |} /\
  exists rest : list Step,
    steps w' = steps w ++ Began :: ActionRan :: rest /\
    (Committed ∈ rest <-> failure = nil) /\
    (RolledBack ∈ rest <-> failure <> nil) /\
    (failure = nil ->
     durable w' = working (snd (outcome action w)) /\
     rest = [Committed; HandedToPublisher (raised (snd (outcome action w)))] /\
     fst (fst (run action w)) = fst (fst (outcome action w))) /\
    (failure <> nil ->
     durable w' = durable w /\
     messaging w' = messaging w /\
     (forall batch, HandedToPublisher batch ∉ rest) /\
     rest = [RolledBack] /\
     snd (fst (run action w)) = failure).
Proof.
  cbn zeta. split; [reflexivity |].
  destruct (outcome action w) as [[result [e |]] tx'] eqn:Hout; simpl.
  - rewrite (Do_failed action w result e tx' Hout). simpl.
    exists [RolledBack]. split; [reflexivity |].
    split; [| split; [| split; [discriminate | intros _; repeat split]]].
    + split; [| discriminate].
      intros Hin. apply list_elem_of_singleton in Hin. discriminate.
    + split; [discriminate |]. intros _. apply list_elem_of_here.
    + intros batch Hin. apply list_elem_of_singleton in Hin. discriminate.
  - rewrite (Do_succeeded action w result tx' Hout). simpl.
    exists [Committed; HandedToPublisher (raised tx')].
    split; [reflexivity |].
    split; [| split; [| split; [intros _; repeat split | intros H; contradiction]]].
    + split; [reflexivity |]. intros _. apply list_elem_of_here.
    + split; [| intros H; contradiction].
      intros Hin. apply elem_of_cons in Hin as [Heq | Hin]; [discriminate |].
      apply list_elem_of_singleton in Hin. discriminate.
Qed.

(** C2: in every [Do], the batch of buffered events is handed to the
    publisher only after the commit, and the publisher's world (the bus
    included) does not change unless the transaction committed; when the
    action succeeds, the store holds the action's changes when the batch
    is handed over, and if the publisher then fails, the caller gets an
    error while the store keeps the committed changes and no rollback
    takes place. *)
Theorem Do_publishes_after_commit (action : Action) (w : World) :
  let w' := snd (run action w) in
  exists new : list Step,
    steps w' = steps w ++ new /\
    (forall batch, Precedes Committed (HandedToPublisher batch) new) /\
    (messaging w' <> messaging w -> Committed ∈ new) /\
    (forall result tx',
       outcome action w = ((result, nil), tx') ->
       let published := Publish id_source (raised tx') retries (messaging w) in
       HandedToPublisher (raised tx') ∈ new /\
       durable w' = working tx' /\
       messaging w' = snd published /\
       (fst published <> nil ->
        snd (fst (run action w)) <> nil /\ RolledBack ∉ new)).
Proof.
  destruct (outcome action w) as [[result [e |]] tx'] eqn:Hout; simpl.
  - rewrite (Do_failed action w result e tx' Hout). simpl.
    exists [Began; ActionRan; RolledBack]. split; [reflexivity |].
    split; [intros batch; apply no_hand_over_on_rollback |].
    split; [intros H; contradiction |].
    intros result0 tx0 H. discriminate H.
  - rewrite (Do_succeeded action w result tx' Hout). simpl.
    exists [Began; ActionRan; Committed; HandedToPublisher (raised tx')].
    split; [reflexivity |].
    split; [intros batch; apply committed_first |].
    split.
    { intros _. apply list_elem_of_further, list_elem_of_further,
        list_elem_of_here. }
    intros result0 tx0 H. inversion H. subst.
    split; [| split; [reflexivity | split; [reflexivity |]]].
    + do 3 apply list_elem_of_further. apply list_elem_of_here.
    + intros Hfail. split.
      * destruct (fst (Publish _ _ _ _)); [discriminate | contradiction].
      * intros Hin. repeat (apply elem_of_cons in Hin as [Heq | Hin];
          [discriminate |]). inversion Hin.
Qed.

End UnitOfWork.

(** Order 7 is created while the bus is down: the caller is told, and the
    order stays in the store. *)
Lemma Do_publishes_after_commit_witness :
  let out := Do counting_ids 0 createOrder7 (startWorld [true]) in
  snd (fst out) <> nil /\
  durable (snd out) !! 7%N = Some "items A, B" /\
  forall batch,
    Precedes Committed (HandedToPublisher batch)
      (steps (snd out)).
Proof.
  destruct (Do_publishes_after_commit counting_ids 0 createOrder7
              (startWorld [true])) as (new & Hsteps & Horder & _ & Hok).
  destruct (Hok (Some "order 7 created")
              {| working := <[7%N := "items A, B"]> ∅;
                 raised := [created7; shipped7] |} eq_refl)
    as (_ & Hdurable & _ & Hfail).
  split; [| split].
  - apply Hfail. vm_compute. discriminate.
  - rewrite Hdurable. apply lookup_insert_eq.
  - intros batch. rewrite Hsteps. apply Horder.
Defined.

(** Order 7 is created: the store holds it afterwards and its two events
    are handed to the publisher after the commit.  An action that fails
    after changing its working copy and raising an event leaves the
    store and the bus as they were. *)
Lemma Do_commits_or_rolls_back_witness :
  let done := Do counting_ids 0 createOrder7 (startWorld []) in
  let failed := Do counting_ids 0 failingAction (startWorld []) in
  (durable (snd done) !! 7%N = Some "items A, B" /\
   steps (snd done) =
     [Began; ActionRan; Committed; HandedToPublisher [created7; shipped7]] /\
   fst (fst done) = Some "order 7 created") /\
  (durable (snd failed) = ∅ /\
   messaging (snd failed) = freshWorld [] /\
   steps (snd failed) = [Began; ActionRan; RolledBack] /\
   snd (fst failed) =
     Some (New "conflict: the order was modified concurrently")).
Proof.
  split.
  - destruct (Do_commits_or_rolls_back counting_ids 0 createOrder7
                (startWorld [])) as (_ & rest & Hsteps & _ & _ & Hdone & _).
    destruct (Hdone eq_refl) as (Hdurable & -> & Hresult).
    split; [| split].
    + rewrite Hdurable. apply lookup_insert_eq.
    + rewrite Hsteps. reflexivity.
    + rewrite Hresult. reflexivity.
  - destruct (Do_commits_or_rolls_back counting_ids 0 failingAction
                (startWorld [])) as (_ & rest & Hsteps & _ & _ & _ & Hfailed).
    destruct Hfailed as (Hdurable & Hmessaging & _ & -> & Herr).
    + discriminate.
    + split; [exact Hdurable |]. split; [exact Hmessaging |].
      split; [rewrite Hsteps; reflexivity | exact Herr].
Defined.

End UowSpec.

Module MessagingSpec.
Import Errors Messaging.

(** ** Order of occurrence in a list *)

Section Order.

Context {A : Type} `{EqDecision A}.
Implicit Types (x y : A) (l : list A).

Lemma precedes_absent x y l : y ∉ l -> Precedes x y l.
Proof.
  intros Hy l1 l2 ->. exfalso. apply Hy.
  apply elem_of_app. right. apply list_elem_of_here.
Qed.

Lemma precedes_prefix x y l l' : Precedes x y (l ++ l') -> Precedes x y l.
Proof.
  intros H l1 l2 ->. apply (H l1 (l2 ++ l')).
  rewrite <- app_assoc. reflexivity.
Qed.

Lemma precedes_app x y l l' :
  Precedes x y l -> Precedes x y l' -> Precedes x y (l ++ l').
Proof.
  intros Hl Hl' l1 l2 Heq.
  apply app_eq_app in Heq as [m [[-> Hm] | [-> Hm]]].
  - destruct m as [| z m]; simpl in Hm.
    + exfalso. specialize (Hl' [] l2 (eq_sym Hm)). inversion Hl'.
    + inversion Hm; subst. apply (Hl l1 m eq_refl).
  - apply elem_of_app. right. apply (Hl' m l2 Hm).
Qed.

Lemma precedes_unfilter (P : A -> Prop) `{forall z, Decision (P z)} x y l :
  P y -> Precedes x y (filter P l) -> Precedes x y l.
Proof.
  intros Py H' l1 l2 ->.
  specialize (H' (filter P l1) (filter P l2)).
  rewrite filter_app, filter_cons_True in H' by exact Py.
  specialize (H' eq_refl). apply list_elem_of_filter in H'. tauto.
Qed.

Lemma precedes_filter (P : A -> Prop) `{forall z, Decision (P z)} x y l :
  P x -> Precedes x y l -> Precedes x y (filter P l).
Proof.
  intros Px. induction l as [| z l IH]; intros Hl l1 l2 Heq.
  - destruct l1; discriminate Heq.
  - destruct (decide (z = x)) as [-> | Hzx].
    + rewrite filter_cons_True in Heq by exact Px.
      destruct l1 as [| z1 l1]; simpl in Heq; inversion Heq; subst.
      * specialize (Hl [] l eq_refl). inversion Hl.
      * apply list_elem_of_here.
    + assert (Hl' : Precedes x y l).
      { intros m1 m2 ->. specialize (Hl (z :: m1) m2 eq_refl).
        apply elem_of_cons in Hl as [Heq' | Hin]; [congruence | exact Hin]. }
      assert (Hzy : z <> y).
      { intros ->. specialize (Hl [] l eq_refl). inversion Hl. }
      rewrite filter_cons in Heq. destruct (decide (P z)).
      * destruct l1 as [| z1 l1]; simpl in Heq; inversion Heq; subst;
          [congruence |].
        apply list_elem_of_further. apply (IH Hl' l1 l2). assumption.
      * apply (IH Hl' l1 l2 Heq).
Qed.

Lemma precedes_take x y l (i j k : nat) :
  NoDup l -> l !! i = Some x -> l !! j = Some y -> i < j ->
  Precedes x y (take k l).
Proof.
  intros Hnd Hx Hy Hij l1 l2 Heq.
  assert (Hat : take k l !! length l1 = Some y).
  { rewrite Heq. apply list_lookup_middle. reflexivity. }
  apply lookup_take_Some in Hat as [Hat Hk].
  assert (Hj : length l1 = j) by (apply (NoDup_lookup l _ _ y); assumption).
  assert (Hxi : take k l !! i = Some x).
  { apply lookup_take_Some. split; [exact Hx | lia]. }
  rewrite Heq, lookup_app_l in Hxi by lia.
  apply (list_elem_of_lookup_2 _ _ _ Hxi).
Qed.

Lemma precedes_not_first x y l : ~ Precedes x y (y :: l).
Proof. intros H. specialize (H [] l eq_refl). inversion H. Qed.

Lemma precedes_tail x y z l : z <> x -> Precedes x y (z :: l) -> Precedes x y l.
Proof.
  intros Hzx H l1 l2 ->. specialize (H (z :: l1) l2 eq_refl).
  apply elem_of_cons in H as [Heq | Hin]; [congruence | exact Hin].
Qed.

(** Redelivery does not disturb the order of first occurrences. *)
Lemma stutters_precedes x y l h :
  Stutters l h -> Precedes x y l -> Precedes x y h.
Proof.
  induction 1 as [l | z l h Hst IH | z l h Hst IH]; intros Hl l1 l2 Heq.
  - destruct l1; discriminate Heq.
  - destruct l1 as [| z1 l1]; simpl in Heq; inversion Heq; subst.
    + exfalso. apply (precedes_not_first x y l Hl).
    + apply list_elem_of_further. apply (IH Hl l1 l2 eq_refl).
  - destruct l1 as [| z1 l1]; simpl in Heq; inversion Heq; subst.
    + exfalso. apply (precedes_not_first x y l Hl).
    + destruct (decide (z1 = x)) as [-> | Hne]; [apply list_elem_of_here |].
      apply list_elem_of_further.
      apply (IH (precedes_tail x y z1 l Hne Hl) l1 l2 eq_refl).
Qed.

End Order.

(** ** The bus *)

Section BusLemmas.

Implicit Types (b : Bus) (env : EventEnvelope) (a : N).

Lemma queue_insert (m : gmap N (list EventEnvelope)) acc fs a a' q :
  queue a {| queues := <[a' := q]> m; accepted := acc; faults := fs |} =
  if decide (a' = a) then q
  else queue a {| queues := m; accepted := acc; faults := fs |}.
Proof.
  unfold queue. simpl. destruct (decide (a' = a)) as [-> | Hne].
  - rewrite lookup_insert_eq. reflexivity.
  - rewrite lookup_insert_ne by exact Hne. reflexivity.
Qed.

Lemma appended_refl b : Appended b [] b.
Proof.
  split; [rewrite app_nil_r; reflexivity |].
  intros a. rewrite app_nil_r. reflexivity.
Qed.

Lemma appended_trans b b' b'' sent sent' :
  Appended b sent b' -> Appended b' sent' b'' ->
  Appended b (sent ++ sent') b''.
Proof.
  intros [Hacc Hq] [Hacc' Hq']. split.
  - rewrite Hacc', Hacc, app_assoc. reflexivity.
  - intros a. rewrite Hq', Hq, filter_app, app_assoc. reflexivity.
Qed.

Lemma bus_Publish_accepts env b :
  fst (bus_Publish env b) = nil -> Appended b [env] (snd (bus_Publish env b)).
Proof.
  unfold bus_Publish.
  assert (Hgo : Appended b [env]
    {| queues := <[streamOf env := queue (streamOf env) b ++ [env]]> (queues b);
       accepted := accepted b ++ [env]; faults := tail (faults b) |}).
  { split; [reflexivity |]. intros a. rewrite queue_insert.
    destruct (decide (streamOf env = a)) as [Heq | Hne].
    - rewrite filter_cons_True by exact Heq. rewrite Heq. reflexivity.
    - rewrite filter_cons_False by exact Hne. simpl. rewrite app_nil_r.
      reflexivity. }
  destruct (faults b) as [| [|] later]; simpl; intros H;
    [exact Hgo | discriminate H | exact Hgo].
Qed.

Lemma bus_Publish_refuses env b :
  fst (bus_Publish env b) <> nil -> Appended b [] (snd (bus_Publish env b)).
Proof.
  unfold bus_Publish.
  destruct (faults b) as [| [|] later]; simpl; intros H;
    [contradiction | | contradiction].
  split; [simpl; rewrite app_nil_r; reflexivity |].
  intros a. rewrite app_nil_r. reflexivity.
Qed.

Lemma queue_after_pull b a a' q :
  queue a {| queues := <[a' := q]> (queues b); accepted := accepted b;
             faults := faults b |} =
  if decide (a' = a) then q else queue a b.
Proof. rewrite queue_insert. reflexivity. Qed.

(** A turn of the worker: nothing on an empty queue; otherwise the head
    of the queue is handed over and either leaves the queue or stays at
    its head, and it leaves when the projection applies it.  The other
    queues are not touched. *)
Lemma turn_cases (bound : nat) a (applies : bool) (s : Subscription) :
  (queue a (feed s) = [] /\ turn bound a applies s = (None, s)) \/
  (exists env rest s',
     queue a (feed s) = env :: rest /\
     turn bound a applies s = (Some env, s') /\
     (forall a', a' <> a -> queue a' (feed s') = queue a' (feed s)) /\
     (queue a (feed s') = rest \/ queue a (feed s') = env :: rest) /\
     (applies = true -> queue a (feed s') = rest)).
Proof.
  unfold turn, pull. destruct (queue a (feed s)) as [| env rest] eqn:Hq.
  - left. auto.
  - right. exists env, rest.
    assert (Hgone : forall a',
      queue a' {| queues := <[a := rest]> (queues (feed s));
                  accepted := accepted (feed s); faults := faults (feed s) |}
      = if decide (a = a') then rest else queue a' (feed s)).
    { intros a'. apply queue_after_pull. }
    destruct applies; [| destruct (decide (refusalsOf env s < bound))];
      eexists; (split; [reflexivity |]); (split; [reflexivity |]); simpl.
    + split; [| split].
      * intros a' Hne. rewrite Hgone. destruct (decide (a = a')); congruence.
      * left. rewrite Hgone. destruct (decide (a = a)); congruence.
      * intros _. rewrite Hgone. destruct (decide (a = a)); congruence.
    + split; [| split].
      * intros a' Hne. reflexivity.
      * right. exact Hq.
      * discriminate.
    + split; [| split].
      * intros a' Hne. rewrite Hgone. destruct (decide (a = a')); congruence.
      * left. rewrite Hgone. destruct (decide (a = a)); congruence.
      * discriminate.
Qed.

(** What a worker hands over from one queue is that queue read from its
    head, with repetitions where envelopes were redelivered. *)
Lemma deliveries_stutter (bound : nat) (schedule : list (N * bool)) :
  forall s,
    (forall a env, env ∈ queue a (feed s) -> streamOf env = a) ->
    forall a,
      Stutters (queue a (feed s))
        (filter (fun env => streamOf env = a) (deliveries bound schedule s)).
Proof.
  induction schedule as [| [a0 applies] later IH]; intros s Hrouted a; simpl.
  - constructor.
  - destruct (turn_cases bound a0 applies s)
      as [[Hq Hturn] | (env & rest & s' & Hq & Hturn & Hother & Hhere & _)];
      rewrite Hturn.
    + apply IH. exact Hrouted.
    + assert (Henv : streamOf env = a0).
      { apply Hrouted. rewrite Hq. apply list_elem_of_here. }
      assert (Hrouted' : forall a1 env1,
                env1 ∈ queue a1 (feed s') -> streamOf env1 = a1).
      { intros a1 env1 Hin. apply Hrouted.
        destruct (decide (a1 = a0)) as [-> | Hne].
        - rewrite Hq. destruct Hhere as [Hh | Hh]; rewrite Hh in Hin;
            [apply list_elem_of_further |]; exact Hin.
        - rewrite <- (Hother a1 Hne). exact Hin. }
      specialize (IH s' Hrouted' a).
      destruct (decide (a = a0)) as [-> | Hne].
      * rewrite filter_cons_True by exact Henv. rewrite Hq.
        destruct Hhere as [Hh | Hh]; rewrite Hh in IH.
        -- apply stutters_next. exact IH.
        -- apply stutters_stay. exact IH.
      * rewrite filter_cons_False by congruence.
        rewrite <- (Hother a Hne). exact IH.
Qed.

(** Within one stream, the order of the queue is the order of delivery. *)
Lemma deliveries_in_queue_order (bound : nat) (schedule : list (N * bool))
    (s : Subscription) a env1 env2 :
  (forall a' env, env ∈ queue a' (feed s) -> streamOf env = a') ->
  streamOf env2 = a ->
  Precedes env1 env2 (queue a (feed s)) ->
  Precedes env1 env2 (deliveries bound schedule s).
Proof.
  intros Hrouted H2 Hq.
  apply (precedes_unfilter (fun env => streamOf env = a)); [exact H2 |].
  apply (stutters_precedes _ _ (queue a (feed s))); [| exact Hq].
  apply deliveries_stutter. exact Hrouted.
Qed.

(** A worker that stays on one queue, with a projection that applies
    what it is handed, is handed the queue from its head. *)
Lemma deliveries_drain (bound : nat) a (n : nat) :
  forall s,
    deliveries bound (replicate n (a, true)) s = take n (queue a (feed s)).
Proof.
  induction n as [| n IH]; intros s; simpl; [reflexivity |].
  destruct (turn_cases bound a true s)
    as [[Hq Hturn] | (env & rest & s' & Hq & Hturn & _ & _ & Hgone)];
    rewrite Hturn, Hq.
  - rewrite IH, Hq. destruct n; reflexivity.
  - simpl. rewrite IH, (Hgone eq_refl). reflexivity.
Qed.

(** Across two streams the worker's schedule decides. *)
Lemma deliveries_two_streams (bound : nat) b a1 a2 x y q1 q2 :
  a1 <> a2 -> queue a1 b = x :: q1 -> queue a2 b = y :: q2 ->
  deliveries bound [(a1, true); (a2, true)] (subscribe b) = [x; y] /\
  deliveries bound [(a2, true); (a1, true)] (subscribe b) = [y; x].
Proof.
  intros Hne H1 H2. simpl. unfold turn, pull. simpl. rewrite H1, H2. simpl.
  rewrite !queue_after_pull.
  destruct (decide (a1 = a2)); [contradiction |].
  destruct (decide (a2 = a1)); [congruence |].
  rewrite H1, H2. split; reflexivity.
Qed.

(** A publication the bus refuses uses up one of its outages; one it
    accepts uses up none. *)
Lemma bus_Publish_outages env b :
  match fst (bus_Publish env b) with
  | None => outages (snd (bus_Publish env b)) = outages b
  | Some _ => S (outages (snd (bus_Publish env b))) = outages b
  end.
Proof.
  unfold bus_Publish, outages.
  destruct (faults b) as [| [|] later]; simpl; reflexivity.
Qed.

End BusLemmas.

(** ** The publisher *)

Section PublisherLemmas.

Context (id_source : nat -> N).

#[local] Abbreviation wrapBatch := (wrapBatch id_source).
#[local] Abbreviation Publish := (Publish id_source).

Lemma wrapBatch_lookup first events i :
  wrapBatch first events !! i =
  wrapEvent (id_source (first + i)) <$> events !! i.
Proof. unfold Messaging.wrapBatch. rewrite list_lookup_imap. reflexivity. Qed.

Lemma wrapBatch_elem first events env :
  env ∈ wrapBatch first events ->
  exists i e, i < length events /\ events !! i = Some e /\
              env = wrapEvent (id_source (first + i)) e.
Proof.
  intros Hin. apply list_elem_of_lookup in Hin as [i Hi].
  rewrite wrapBatch_lookup in Hi.
  destruct (events !! i) as [e |] eqn:He; [| discriminate].
  exists i, e. split; [apply (lookup_lt_Some _ _ _ He) |].
  split; [exact He |]. simpl in Hi. congruence.
Qed.

Lemma wrapBatch_ids_NoDup first events :
  Inj (=) (=) id_source -> NoDup (MessageId <$> wrapBatch first events).
Proof.
  intros Hinj. apply NoDup_alt. intros i j x Hi Hj.
  rewrite list_lookup_fmap, wrapBatch_lookup in Hi, Hj.
  destruct (events !! i); [| discriminate].
  destruct (events !! j); [| discriminate].
  simpl in Hi, Hj. assert (Heq : id_source (first + i) = id_source (first + j))
    by congruence.
  apply Hinj in Heq. lia.
Qed.

Lemma wrapBatch_NoDup first events :
  Inj (=) (=) id_source -> NoDup (wrapBatch first events).
Proof.
  intros Hinj. apply (NoDup_fmap_1 MessageId).
  apply wrapBatch_ids_NoDup. exact Hinj.
Qed.

Lemma sendAll_appended (envs : list EventEnvelope) :
  forall b, exists k,
    Appended b (take k envs) (snd (sendAll envs b)) /\
    (fst (sendAll envs b) = nil -> take k envs = envs).
Proof.
  induction envs as [| env rest IH]; intros b; simpl.
  - exists 0. split; [apply appended_refl | reflexivity].
  - destruct (bus_Publish env b) as [[e |] b1] eqn:Hp; simpl.
    + exists 0. split; [| discriminate].
      pose proof (bus_Publish_refuses env b) as H. rewrite Hp in H.
      apply H. discriminate.
    + destruct (IH b1) as [k [Hk Hall]]. exists (S k). split.
      * pose proof (bus_Publish_accepts env b) as H. rewrite Hp in H.
        apply (appended_trans b b1 _ [env] (take k rest));
          [apply H; reflexivity | exact Hk].
      * intros Hnil. simpl. rewrite (Hall Hnil). reflexivity.
Qed.

Lemma take_subseteq (envs : list EventEnvelope) k env :
  env ∈ take k envs -> env ∈ envs.
Proof.
  intros Hin. apply elem_of_take in Hin as (i & Hi & _).
  apply (list_elem_of_lookup_2 _ _ _ Hi).
Qed.

(** What a run of attempts leaves behind: the id counter is untouched,
    every attempt offered the same envelopes, and the bus accepted a
    sequence of fronts of the batch. *)
Lemma attempts_spec (envs : list EventEnvelope) (retries : nat) :
  forall w,
    let out := attempts retries envs w in
    nextId (snd out) = nextId w /\
    (exists k, k <= retries /\
       attemptsMade (snd out) = attemptsMade w ++ replicate (S k) envs) /\
    exists sent,
      Appended (bus w) sent (bus (snd out)) /\
      (forall env, env ∈ sent -> env ∈ envs) /\
      (fst out = nil -> forall env, env ∈ envs -> env ∈ sent) /\
      (forall x y, (forall k, Precedes x y (take k envs)) -> Precedes x y sent).
Proof.
  induction retries as [| fewer IH]; intros w; simpl; unfold attempt;
    destruct (sendAll_appended envs (bus w)) as [k0 [Happ Hall]];
    destruct (sendAll envs (bus w)) as [[e |] b1] eqn:Hs; simpl in *.
  - split; [reflexivity |]. split; [exists 0; split; [lia | reflexivity] |].
    exists (take k0 envs). split; [exact Happ |].
    split; [intros env; apply take_subseteq |].
    split; [discriminate | intros x y H; apply H].
  - split; [reflexivity |]. split; [exists 0; split; [lia | reflexivity] |].
    exists (take k0 envs). split; [exact Happ |].
    split; [intros env; apply take_subseteq |].
    split; [intros _ env; rewrite (Hall eq_refl); auto |].
    intros x y H; apply H.
  - match goal with |- context [attempts fewer envs ?w0] => set (w1 := w0) end.
    destruct (IH w1) as (Hid & (k & Hk & Hlog) & sent & Happ' & Hsub & Hfull & Hord).
    split; [exact Hid |]. split.
    { exists (S k). split; [lia |]. rewrite Hlog. unfold w1. simpl.
      rewrite <- app_assoc. reflexivity. }
    exists (take k0 envs ++ sent). split.
    { apply (appended_trans _ b1); [exact Happ | exact Happ']. }
    split.
    { intros env Hin. apply elem_of_app in Hin as [Hin | Hin];
        [apply (take_subseteq _ _ _ Hin) | apply (Hsub _ Hin)]. }
    split.
    { intros Hnil env Hin. apply elem_of_app. right. apply (Hfull Hnil _ Hin). }
    intros x y H. apply precedes_app; [apply H | apply Hord; exact H].
  - split; [reflexivity |]. split; [exists 0; split; [lia | reflexivity] |].
    exists (take k0 envs). split; [exact Happ |].
    split; [intros env; apply take_subseteq |].
    split; [intros _ env; rewrite (Hall eq_refl); auto |].
    intros x y H; apply H.
Qed.

Lemma Publish_spec (events : list DomainEvent) (retries : nat) (w : PubWorld) :
  let envs := wrapBatch (nextId w) events in
  let out := Publish events retries w in
  nextId (snd out) = nextId w + length events /\
  (exists k, k <= retries /\
     attemptsMade (snd out) = attemptsMade w ++ replicate (S k) envs) /\
  exists sent,
    Appended (bus w) sent (bus (snd out)) /\
    (forall env, env ∈ sent -> env ∈ envs) /\
    (fst out = nil -> forall env, env ∈ envs -> env ∈ sent) /\
    (forall x y, (forall k, Precedes x y (take k envs)) -> Precedes x y sent).
Proof.
  unfold Messaging.Publish.
  apply (attempts_spec (wrapBatch (nextId w) events) retries
           {| bus := bus w; nextId := nextId w + length events;
              attemptsMade := attemptsMade w |}).
Qed.

(** Publishing keeps the invariant of the publisher's world. *)
Lemma Publish_Inv (events : list DomainEvent) (retries : nat) (w : PubWorld) :
  Inv id_source w -> Inv id_source (snd (Publish events retries w)).
Proof.
  intros [Hrouted Hdrawn].
  destruct (Publish_spec events retries w)
    as (Hid & _ & sent & [Hacc Hq] & Hsub & _ & _).
  split.
  - intros a env. rewrite Hq, Hacc, !elem_of_app, list_elem_of_filter.
    intros [Hold | [Hstream Hnew]].
    + destruct (Hrouted a env Hold). auto.
    + auto.
  - intros env. rewrite Hacc, Hid, elem_of_app. intros [Hold | Hnew].
    + destruct (Hdrawn env Hold) as (n & Hn & Heq). exists n. split; [lia | exact Heq].
    + apply Hsub, wrapBatch_elem in Hnew as (i & e & Hi & _ & ->).
      exists (nextId w + i). split; [lia | reflexivity].
Qed.

(** Pulling keeps it too. *)
Lemma pull_Inv (a : N) (w : PubWorld) :
  Inv id_source w ->
  Inv id_source {| bus := snd (pull a (bus w)); nextId := nextId w;
                   attemptsMade := attemptsMade w |}.
Proof.
  intros [Hrouted Hdrawn]. unfold pull.
  destruct (queue a (bus w)) as [| env0 rest] eqn:Hq; simpl.
  - split; assumption.
  - split; simpl.
    + intros a1 env. rewrite queue_after_pull.
      destruct (decide (a = a1)) as [<- | Hne].
      * intros Hin. apply Hrouted. rewrite Hq.
        apply list_elem_of_further. exact Hin.
      * apply Hrouted.
    + exact Hdrawn.
Qed.

Lemma freshWorld_Inv (script : list bool) : Inv id_source (freshWorld script).
Proof.
  split.
  - intros a env Hin. unfold queue in Hin. simpl in Hin.
    rewrite lookup_empty in Hin. inversion Hin.
  - intros env Hin. inversion Hin.
Qed.


(** An attempt that fails uses up one outage of the bus; one that goes
    through uses up none. *)
Lemma sendAll_outages (envs : list EventEnvelope) :
  forall b,
    match fst (sendAll envs b) with
    | None => outages (snd (sendAll envs b)) = outages b
    | Some _ => S (outages (snd (sendAll envs b))) = outages b
    end.
Proof.
  induction envs as [| env rest IH]; intros b; simpl; [reflexivity |].
  pose proof (bus_Publish_outages env b) as Hone.
  destruct (bus_Publish env b) as [[e |] b1]; simpl in *; [exact Hone |].
  rewrite <- Hone. apply IH.
Qed.

(** With no more outages in store than retries allowed, a run of attempts
    goes through. *)
Lemma attempts_succeeds (envs : list EventEnvelope) (retries : nat) :
  forall w, outages (bus w) <= retries -> fst (attempts retries envs w) = nil.
Proof.
  induction retries as [| fewer IH]; intros w Hout; simpl; unfold attempt;
    pose proof (sendAll_outages envs (bus w)) as Hone;
    destruct (sendAll envs (bus w)) as [[e |] b1]; simpl in *;
    try reflexivity.
  - lia.
  - apply IH. simpl. lia.
Qed.

(** A run of attempts that goes through ends with an attempt in which the
    bus accepted the whole batch. *)
Lemma attempts_whole_batch (envs : list EventEnvelope) (retries : nat) :
  forall w,
    fst (attempts retries envs w) = nil ->
    exists earlier,
      Appended (bus w) (earlier ++ envs) (bus (snd (attempts retries envs w))).
Proof.
  induction retries as [| fewer IH]; intros w; simpl; unfold attempt;
    destruct (sendAll_appended envs (bus w)) as [k0 [Happ Hall]];
    destruct (sendAll envs (bus w)) as [[e |] b1] eqn:Hs; simpl in *.
  - discriminate.
  - intros _. exists []. rewrite <- (Hall eq_refl). exact Happ.
  - intros Hnil. destruct (IH _ Hnil) as [earlier Hrest]. simpl in Hrest.
    exists (take k0 envs ++ earlier). rewrite <- app_assoc.
    apply (appended_trans _ b1); assumption.
  - intros _. exists []. rewrite <- (Hall eq_refl). exact Happ.
Qed.

(** C6: two events of one aggregate raised in one batch, the first before
    the second.  Published: the bus accepts them in that order (every
    occurrence of the second envelope in its record comes after one of the
    first); [Publish] goes through whenever the bus has no more outages in
    store than retries are allowed; and when it goes through, the record
    of the bus ends with the whole batch in the order raised and both
    envelopes wait in the queue of their aggregate.  Delivered: whatever
    the worker's schedule, whatever the projection refuses and however
    often an envelope is redelivered or dead-lettered, every delivery of
    the second envelope comes after a delivery of the first; and a worker
    that stays on the aggregate's queue with a projection that applies
    what it is handed is handed that queue from its head, in order, so
    after a [Publish] that went through it is handed both, the first
    before the second.  Across aggregates nothing is fixed: with two
    queues that are not empty, either head can be delivered first. *)
Theorem per_aggregate_order
    (events : list DomainEvent) (retries : nat) (w : PubWorld)
    (i j : nat) (e1 e2 : DomainEvent) :
  Inj (=) (=) id_source ->
  Inv id_source w ->
  events !! i = Some e1 ->
  events !! j = Some e2 ->
  i < j ->
  AggregateId e1 = AggregateId e2 ->
  let env1 := wrapEvent (id_source (nextId w + i)) e1 in
  let env2 := wrapEvent (id_source (nextId w + j)) e2 in
  let out := Publish events retries w in
  let b' := bus (snd out) in
  let a := AggregateId e1 in
  Precedes env1 env2 (accepted b') /\
  (outages (bus w) <= retries -> fst out = nil) /\
  (fst out = nil ->
   (exists earlier,
      accepted b' =
      accepted (bus w) ++ earlier ++ wrapBatch (nextId w) events) /\
   env1 ∈ queue a b' /\
   env2 ∈ queue a b') /\
  (forall (bound : nat) (schedule : list (N * bool)),
     Precedes env1 env2 (deliveries bound schedule (subscribe b'))) /\
  (forall (bound n : nat),
     deliveries bound (replicate n (a, true)) (subscribe b')
     = take n (queue a b')) /\
  (fst out = nil ->
   forall bound : nat,
     let handed :=
       deliveries bound (replicate (length (queue a b')) (a, true))
         (subscribe b') in
     env1 ∈ handed /\ env2 ∈ handed /\ Precedes env1 env2 handed) /\
  (forall (b : Bus) (bound : nat) (a1 a2 : N) (x y : EventEnvelope)
          (q1 q2 : list EventEnvelope),
     a1 <> a2 -> queue a1 b = x :: q1 -> queue a2 b = y :: q2 ->
     deliveries bound [(a1, true); (a2, true)] (subscribe b) = [x; y] /\
     deliveries bound [(a2, true); (a1, true)] (subscribe b) = [y; x]).
Proof.
  intros Hinj Hinv He1 He2 Hij Hagg. cbn zeta.
  set (env1 := wrapEvent (id_source (nextId w + i)) e1).
  set (env2 := wrapEvent (id_source (nextId w + j)) e2).
  set (envs := wrapBatch (nextId w) events).
  set (b' := bus (snd (Publish events retries w))).
  set (a := AggregateId e1).
  assert (H1 : envs !! i = Some env1).
  { unfold envs. rewrite wrapBatch_lookup, He1. reflexivity. }
  assert (H2 : envs !! j = Some env2).
  { unfold envs. rewrite wrapBatch_lookup, He2. reflexivity. }
  assert (Hs1 : streamOf env1 = a) by reflexivity.
  assert (Hs2 : streamOf env2 = a)
    by (unfold streamOf, a; simpl; symmetry; exact Hagg).
  pose proof (Publish_Inv events retries w Hinv) as [Hrouted' _].
  fold b' in Hrouted'.
  assert (Hrouted : forall a' env, env ∈ queue a' (feed (subscribe b')) ->
                                   streamOf env = a').
  { intros a' env Hin. apply (Hrouted' a' env Hin). }
  destruct (Publish_spec events retries w)
    as (_ & _ & sent & [Hacc Hq] & _ & Hfull & Hord).
  fold envs in Hfull, Hord. fold b' in Hacc, Hq.
  assert (Hsent : Precedes env1 env2 sent).
  { apply Hord. intros k.
    apply (precedes_take env1 env2 envs i j k); try assumption.
    apply wrapBatch_NoDup. exact Hinj. }
  assert (Hfresh : env2 ∉ accepted (bus w)).
  { intros Hin. destruct (inv_drawn _ _ Hinv env2 Hin) as (n & Hn & Heq).
    simpl in Heq. apply Hinj in Heq. lia. }
  assert (Hwaiting : env2 ∉ queue a (bus w)).
  { intros Hin. apply Hfresh. apply (inv_routed _ _ Hinv _ _ Hin). }
  assert (Hqueue : Precedes env1 env2 (queue a b')).
  { rewrite Hq. apply precedes_app; [apply precedes_absent; exact Hwaiting |].
    apply precedes_filter; [exact Hs1 | exact Hsent]. }
  assert (Hboth : fst (Publish events retries w) = nil ->
                  env1 ∈ queue a b' /\ env2 ∈ queue a b').
  { intros Hnil. rewrite !Hq, !elem_of_app, !list_elem_of_filter.
    split; right; (split; [assumption |]); apply (Hfull Hnil).
    - apply (list_elem_of_lookup_2 _ _ _ H1).
    - apply (list_elem_of_lookup_2 _ _ _ H2). }
  assert (Hdel : forall bound schedule,
            Precedes env1 env2 (deliveries bound schedule (subscribe b'))).
  { intros bound schedule.
    apply (deliveries_in_queue_order bound schedule _ a); assumption. }
  split; [| split; [| split; [| split; [| split; [| split]]]]].
  - rewrite Hacc. apply precedes_app; [apply precedes_absent |]; assumption.
  - intros Hout. unfold Messaging.Publish. apply attempts_succeeds.
    simpl. exact Hout.
  - intros Hnil. split; [| apply Hboth; exact Hnil].
    unfold Messaging.Publish in Hnil.
    destruct (attempts_whole_batch _ _ _ Hnil) as [earlier [Hwhole _]].
    exists earlier. exact Hwhole.
  - exact Hdel.
  - intros bound n. apply deliveries_drain.
  - intros Hnil bound. cbn zeta. rewrite deliveries_drain.
    rewrite firstn_all. destruct (Hboth Hnil) as [Hin1 Hin2].
    split; [exact Hin1 | split; [exact Hin2 | exact Hqueue]].
  - intros b bound a1 a2 x y q1 q2. apply deliveries_two_streams.
Qed.

End PublisherLemmas.

Lemma counting_ids_inj : Inj (=) (=) counting_ids.
Proof. intros n m H. unfold counting_ids in H. lia. Qed.

(** The batch of the scenario on a bus that refuses its second
    publication: the first attempt leaves one envelope behind, the retry
    delivers all three, and the worker that serves stream 7 and then
    stream 8 sees the creation of order 7 (twice) before its shipping. *)
Example batch78_deliveries :
  MessageId <$>
    deliveries 2 [(7, true); (7, true); (7, true); (8, true)]%N
      (subscribe
         (bus (snd (Publish counting_ids batch78 1 (freshWorld [false; true])))))
  = [100; 100; 102; 101]%N.
Proof. vm_compute. reflexivity. Qed.

(** The same bus with a projection that refuses the creation of order 7
    at first.  With one redelivery allowed the envelope comes again and
    is applied; with none allowed it is dead-lettered and the worker goes
    on. *)
Example batch78_redelivery :
  MessageId <$>
    deliveries 1 [(7, false); (7, true); (7, true); (7, true)]%N
      (subscribe
         (bus (snd (Publish counting_ids batch78 1 (freshWorld [false; true])))))
  = [100; 100; 100; 102]%N.
Proof. vm_compute. reflexivity. Qed.

Example batch78_dead_letter :
  MessageId <$>
    deadLetters
      (afterDeliveries 0 [(7, false); (7, true); (7, true)]%N
         (subscribe
            (bus (snd (Publish counting_ids batch78 1
                         (freshWorld [false; true]))))))
  = [100]%N.
Proof. vm_compute. reflexivity. Qed.


(** One outage and one retry: [Publish] goes through, the record of the
    bus ends with the batch, and the worker that stays on stream 7 is
    handed the creation of order 7 and its shipping, in that order. *)
Lemma per_aggregate_order_witness :
  let env1 := wrapEvent (counting_ids 0) created7 in
  let env2 := wrapEvent (counting_ids 2) shipped7 in
  let out := Publish counting_ids batch78 1 (freshWorld [false; true]) in
  let b' := bus (snd out) in
  let handed :=
    deliveries 3 (replicate (length (queue 7 b')) (7%N, true)) (subscribe b') in
  fst out = nil /\
  (exists earlier,
     accepted b' = [] ++ earlier ++ wrapBatch counting_ids 0 batch78) /\
  Precedes env1 env2 (accepted b') /\
  env1 ∈ handed /\ env2 ∈ handed /\ Precedes env1 env2 handed /\
  (forall (bound : nat) (schedule : list (N * bool)),
     Precedes env1 env2 (deliveries bound schedule (subscribe b'))).
Proof.
  destruct (per_aggregate_order counting_ids batch78 1 (freshWorld [false; true])
              0 2 created7 shipped7)
    as (Hacc & Hlive & Hsent & Hdel & _ & Hhanded & _).
  - exact counting_ids_inj.
  - apply freshWorld_Inv.
  - reflexivity.
  - reflexivity.
  - lia.
  - reflexivity.
  - assert (Hnil : fst (Publish counting_ids batch78 1
                          (freshWorld [false; true])) = nil).
    { apply Hlive. vm_compute. lia. }
    destruct (Hsent Hnil) as (Hwhole & _ & _).
    destruct (Hhanded Hnil 3) as (Hin1 & Hin2 & Hord).
    split; [exact Hnil |]. split; [exact Hwhole |]. split; [exact Hacc |].
    split; [exact Hin1 |]. split; [exact Hin2 |]. split; [exact Hord |].
    exact Hdel.
Defined.

End MessagingSpec.

(** * Further properties of the order projection *)

Module ProjectionExtras.
Import Errors Projection ProjectionRuns ProjectionSpec.

Section Generic.

Context {ShopItem ShopItemReadModel Store : Type}.
Context (mapper_Map : list ShopItem -> list ShopItemReadModel + err).
Context (uuid_source : nat -> UUID).
Context (m : mongoOrderProjection ShopItemReadModel Store).

#[local] Abbreviation process := (ProcessEvent mapper_Map uuid_source m).
#[local] Abbreviation World := (World ShopItemReadModel Store).
#[local] Abbreviation step := (once mapper_Map uuid_source m).
#[local] Abbreviation run := (processAll mapper_Map uuid_source m).
#[local] Abbreviation asks := (requested mapper_Map).
#[local] Abbreviation create := (CreateOrder (mongoOrderRepository m)).

(** [ProcessEvent] on an envelope that asks nothing of the repository. *)
Lemma process_silent (se : StreamEvent ShopItem) (w : World) :
  asks se = None -> snd (process se w) = w /\
  (fst (process se w) = nil <-> is_OrderCreatedEventV1 (Event se) = false).
Proof.
  unfold requested, ProcessEvent.
  destruct (Event se) as [evt | other |]; simpl.
  - destruct (mapper_Map (evt_ShopItems evt)) as [items | e] eqn:Hmap;
      [discriminate |]. intros _.
    rewrite (handle_map_error mapper_Map uuid_source m evt w e Hmap). simpl.
    split; [reflexivity |]. split; discriminate.
  - intros _. split; [reflexivity |]. split; reflexivity.
  - intros _. split; [reflexivity |]. split; reflexivity.
Qed.

(** [ProcessEvent] on an envelope that asks for a read model. *)
Lemma process_asking (se : StreamEvent ShopItem) (w : World) r :
  asks se = Some r ->
  let doc := documentOf (uuid_source (drawn w)) r in
  process se w =
    (match fst (create doc (store w)) with
     | inl _ => nil
     | inr e => Some (Wrapped e
         "[mongoOrderProjection_onOrderCreated.CreateOrder] error in creating order with mongoOrderRepository")
     end,
     {| store := snd (create doc (store w)); drawn := S (drawn w);
        calls := calls w ++ [CallCreateOrder doc] |}).
Proof.
  unfold requested, ProcessEvent.
  destruct (Event se) as [evt | other |]; simpl; try discriminate.
  destruct (mapper_Map (evt_ShopItems evt)) as [items | e] eqn:Hmap;
    [| discriminate].
  intros H. inversion H. subst. cbn zeta.
  rewrite (handle_mapped mapper_Map uuid_source m evt w items Hmap).
  reflexivity.
Qed.

(** X1: when the items map and the repository fails, [ProcessEvent]
    returns the repository's error wrapped with the CreateOrder message,
    after one draw from the id generator and one call of [CreateOrder];
    the store is what the failed call left. *)
Theorem ProcessEvent_store_failure
    (se : StreamEvent ShopItem) (evt : OrderCreatedEventV1 ShopItem)
    (items : list ShopItemReadModel) (e : err) (s' : Store) (w : World) :
  Event se = EvOrderCreatedV1 evt ->
  mapper_Map (evt_ShopItems evt) = inl items ->
  create (documentOf (uuid_source (drawn w)) (evt, items)) (store w)
    = (inr e, s') ->
  fst (process se w) =
    Some (Wrapped e
      "[mongoOrderProjection_onOrderCreated.CreateOrder] error in creating order with mongoOrderRepository") /\
  calls (snd (process se w)) =
    calls w ++ [CallCreateOrder (documentOf (uuid_source (drawn w)) (evt, items))] /\
  store (snd (process se w)) = s' /\
  drawn (snd (process se w)) = S (drawn w).
Proof.
  intros Hev Hmap Hcreate.
  assert (Hasks : asks se = Some (evt, items)).
  { unfold requested. rewrite Hev, Hmap. reflexivity. }
  rewrite (process_asking se w _ Hasks). cbn zeta. rewrite Hcreate. simpl.
  repeat split; reflexivity.
Qed.

(** X2: [ProcessEvent] returns nil exactly when the event is not an
    [OrderCreatedEventV1], or it is one whose items map and whose read
    model the repository creates. *)
Theorem ProcessEvent_nil_iff (se : StreamEvent ShopItem) (w : World) :
  fst (process se w) = nil <->
  is_OrderCreatedEventV1 (Event se) = false \/
  exists evt items stored,
    Event se = EvOrderCreatedV1 evt /\
    mapper_Map (evt_ShopItems evt) = inl items /\
    fst (create (documentOf (uuid_source (drawn w)) (evt, items)) (store w))
      = inl stored.
Proof.
  destruct (asks se) as [[evt items] |] eqn:Hasks.
  - assert (Hev : Event se = EvOrderCreatedV1 evt /\
                  mapper_Map (evt_ShopItems evt) = inl items).
    { unfold requested in Hasks.
      destruct (Event se) as [evt0 | |]; try discriminate.
      destruct (mapper_Map (evt_ShopItems evt0)) eqn:Hmap; [| discriminate].
      inversion Hasks. subst. auto. }
    destruct Hev as [Hev Hmap].
    rewrite (process_asking se w _ Hasks). cbn zeta. simpl. split.
    + intros Hnil. right. exists evt, items.
      destruct (fst (create _ _)) as [stored | e]; [| discriminate].
      exists stored. auto.
    + intros [Hother | (evt' & items' & stored & Hev' & Hmap' & Hok)].
      * rewrite Hev in Hother. discriminate.
      * rewrite Hev in Hev'. inversion Hev'. subst evt'.
        rewrite Hmap in Hmap'. inversion Hmap'. subst items'.
        rewrite Hok. reflexivity.
  - destruct (process_silent se w Hasks) as [_ Hiff]. rewrite Hiff. split.
    + auto.
    + intros [Hother | (evt & items & stored & Hev & Hmap & _)];
        [exact Hother |].
      unfold requested in Hasks. rewrite Hev, Hmap in Hasks. discriminate.
Qed.

(** X3: one [ProcessEvent] calls the repository at most once, draws a
    document id exactly when it calls the repository, and leaves the read
    store alone when it does not. *)
Theorem ProcessEvent_one_call_at_most (se : StreamEvent ShopItem) (w : World) :
  exists new : list (RepoCall ShopItemReadModel),
    calls (snd (process se w)) = calls w ++ new /\
    length new <= 1 /\
    drawn (snd (process se w)) = drawn w + length new /\
    (new = [] -> store (snd (process se w)) = store w).
Proof.
  destruct (asks se) as [r |] eqn:Hasks.
  - rewrite (process_asking se w _ Hasks). cbn zeta. simpl.
    eexists. split; [reflexivity |]. simpl.
    split; [lia |]. split; [lia | discriminate].
  - destruct (process_silent se w Hasks) as [-> _].
    exists []. rewrite app_nil_r. simpl. split; [reflexivity |].
    split; [lia |]. split; [lia | reflexivity].
Qed.

Lemma step_spec (se : StreamEvent ShopItem) (w : World) :
  step se w =
  match asks se with
  | None => w
  | Some r =>
      let doc := documentOf (uuid_source (drawn w)) r in
      {| store := snd (create doc (store w)); drawn := S (drawn w);
         calls := calls w ++ [CallCreateOrder doc] |}
  end.
Proof.
  unfold once. destruct (asks se) as [r |] eqn:Hasks.
  - rewrite (process_asking se w _ Hasks). reflexivity.
  - apply (process_silent se w Hasks).
Qed.

(** X4: over any run of deliveries the repository is asked for exactly
    one read model per [OrderCreatedEventV1] whose items map, in the order
    of delivery and under consecutive draws of the id generator, whatever
    the repository answers; other envelopes add nothing. *)
Theorem processAll_calls (ses : list (StreamEvent ShopItem)) (w : World) :
  calls (run ses w) =
    calls w ++
      (CallCreateOrder <$> documentsOf uuid_source (drawn w) (omap asks ses)) /\
  drawn (run ses w) = drawn w + length (omap asks ses).
Proof.
  revert w. induction ses as [| se ses IH]; intros w.
  - simpl. rewrite app_nil_r. split; [reflexivity | lia].
  - unfold processAll in *. simpl. fold (step se w).
    destruct (IH (step se w)) as [Hcalls Hdrawn].
    rewrite Hcalls, Hdrawn, (step_spec se w).
    destruct (asks se) as [r |]; simpl.
    + unfold documentsOf. simpl. rewrite <- app_assoc. simpl.
      change (list_omap _ _ asks ses) with (omap asks ses).
      split; [reflexivity | lia].
    + split; reflexivity.
Qed.

Lemma documentsOf_ids first
    (rs : list (OrderCreatedEventV1 ShopItem * list ShopItemReadModel)) :
  Id <$> documentsOf uuid_source first rs = uuid_source <$> seq first (length rs).
Proof.
  unfold documentsOf. revert first.
  induction rs as [| r rs IH]; intros first; simpl; [reflexivity |].
  rewrite IH. reflexivity.
Qed.

(** X5: when the id generator never repeats an id, the read models a run
    asks the repository to create carry pairwise distinct document ids. *)
Theorem processAll_distinct_ids (ses : list (StreamEvent ShopItem)) (w : World) :
  Inj (=) (=) uuid_source ->
  exists docs : list (OrderReadModel ShopItemReadModel),
    calls (run ses w) = calls w ++ (CallCreateOrder <$> docs) /\
    NoDup (Id <$> docs).
Proof.
  intros Hinj. exists (documentsOf uuid_source (drawn w) (omap asks ses)).
  split; [apply processAll_calls |].
  rewrite documentsOf_ids. apply NoDup_fmap_2; [exact Hinj | apply NoDup_seq].
Qed.

End Generic.

Lemma counting_source_inj : Inj (=) (=) counting_source.
Proof. intros n n' H. unfold counting_source in H. lia. Qed.

Lemma ProcessEvent_store_failure_witness :
  fst (ProcessEvent configured_Map counting_source
         (NewMongoOrderProjection downRepository) envelope7 emptyWorld) <> nil /\
  length (calls (snd (ProcessEvent configured_Map counting_source
         (NewMongoOrderProjection downRepository) envelope7 emptyWorld))) = 1.
Proof.
  destruct (ProcessEvent_store_failure configured_Map counting_source
              (NewMongoOrderProjection downRepository) envelope7 orderCreated7
              ["A"; "B"] (New "storage unavailable") [] emptyWorld
              eq_refl eq_refl eq_refl) as (Herr & Hcalls & _).
  split.
  - rewrite Herr. discriminate.
  - rewrite Hcalls. reflexivity.
Defined.

(** Order 7, a shipping notice, order 8, and order 7 again: three read
    models are asked for, under the ids 0, 1 and 2. *)
Example run_of_four :
  Id <$> store (processAll configured_Map counting_source memProjection
                  [envelope7; envelopeShipped; envelope8; envelope7] emptyWorld)
  = [0; 1; 2]%N.
Proof. reflexivity. Qed.

Lemma processAll_distinct_ids_witness :
  exists docs : list (OrderReadModel string),
    calls (processAll configured_Map counting_source memProjection
             [envelope7; envelopeShipped; envelope8; envelope7] emptyWorld)
      = calls emptyWorld ++ (CallCreateOrder <$> docs) /\
    NoDup (Id <$> docs).
Proof.
  apply (processAll_distinct_ids configured_Map counting_source memProjection
           [envelope7; envelopeShipped; envelope8; envelope7] emptyWorld).
  exact counting_source_inj.
Defined.

End ProjectionExtras.

(** * Properties of the tracing set-up *)

Module TracingSpec.
Import Errors Tracing.

Section Setup.

Context {SpanExporter Resource : Type}.
Context (otlptracegrpc_New : list GrpcOption -> SpanExporter + err).
Context (zipkin_New : string -> SpanExporter + err).
Context (stdouttrace_New : SpanExporter + err).
Context (resource_New : list ResourceOption -> option Resource * error).

#[local] Abbreviation Otel := (Otel SpanExporter Resource).
#[local] Abbreviation Locals := (Locals SpanExporter).
#[local] Abbreviation result := (outcome otlptracegrpc_New zipkin_New stdouttrace_New).
#[local] Abbreviation call := (construct otlptracegrpc_New zipkin_New stdouttrace_New).
#[local] Abbreviation Ran := (Ran otlptracegrpc_New zipkin_New stdouttrace_New).
#[local] Abbreviation grpcExporter :=
  (grpcExporter otlptracegrpc_New zipkin_New stdouttrace_New).
#[local] Abbreviation zipkinExporter :=
  (zipkinExporter otlptracegrpc_New zipkin_New stdouttrace_New).
#[local] Abbreviation stdoutExporter :=
  (stdoutExporter otlptracegrpc_New zipkin_New stdouttrace_New).
#[local] Abbreviation namedExporters :=
  (namedExporters otlptracegrpc_New zipkin_New stdouttrace_New).
#[local] Abbreviation otlpProviders :=
  (otlpProviders otlptracegrpc_New zipkin_New stdouttrace_New).
#[local] Abbreviation configExporters :=
  (configExporters otlptracegrpc_New zipkin_New stdouttrace_New).

Implicit Types (o : Otel) (l : Locals).

Lemma ran_ret l o : Ran l o (inl l) o.
Proof.
  exists []. rewrite app_nil_r. repeat split; try reflexivity; try constructor.
  exists []. rewrite app_nil_r. split; reflexivity.
Qed.

Lemma ran_then l0 o0 l1 o1 (r : Locals + err) o2 :
  Ran l0 o0 (inl l1) o1 -> Ran l1 o1 r o2 -> Ran l0 o0 r o2.
Proof.
  intros (new1 & Hc1 & Hp1 & Hq1 & Hfrom1 & Hsorted1 & Hext1 & Hbelow1 & xs1 & Hx1 & Hout1).
  intros (new2 & Hc2 & Hp2 & Hq2 & Hfrom2 & Hsorted2 & Hr).
  exists (new1 ++ new2).
  split; [rewrite Hc2, Hc1, app_assoc; reflexivity |].
  split; [congruence |]. split; [congruence |].
  unfold grpcOptions in *. rewrite omap_app.
  split.
  { apply Forall_app. split; [exact Hfrom1 |].
    eapply Forall_impl; [exact Hfrom2 |]. intros g Hg. simpl in Hg.
    etrans; eassumption. }
  split.
  { apply StronglySorted_app_2; [| assumption | assumption].
    intros g1 g2 Hg1 Hg2.
    rewrite Forall_forall in Hbelow1, Hfrom2.
    etrans; [apply (Hbelow1 _ Hg1) | apply (Hfrom2 _ Hg2)]. }
  destruct r as [l2 | e].
  - destruct Hr as (Hext2 & Hbelow2 & xs2 & Hx2 & Hout2).
    split; [etrans; eassumption |].
    split.
    { apply Forall_app. split; [| exact Hbelow2].
      eapply Forall_impl; [exact Hbelow1 |]. intros g Hg. simpl in Hg.
      etrans; eassumption. }
    exists (xs1 ++ xs2). split.
    + rewrite Hx2, Hx1, app_assoc. reflexivity.
    + rewrite !fmap_app, Hout1, Hout2. reflexivity.
  - destruct Hr as (pre & c & cause & msg & Hnew & Hpre & Hfail & He).
    exists (new1 ++ pre), c, cause, msg.
    split; [rewrite Hnew, app_assoc; reflexivity |].
    split; [| auto].
    apply Forall_app. split; [| exact Hpre].
    apply Forall_forall. intros c1 Hin.
    apply list_elem_of_lookup in Hin as [i Hi].
    assert (Hres : (result <$> new1) !! i = Some (result c1))
      by (rewrite list_lookup_fmap, Hi; reflexivity).
    rewrite Hout1, list_lookup_fmap in Hres.
    destruct (xs1 !! i) as [x |]; [| discriminate].
    exists x. simpl in Hres. congruence.
Qed.

Lemma ran_bind (c : @Tr SpanExporter Resource Locals)
    (k : Locals -> @Tr SpanExporter Resource Locals) l0 o0 :
  Ran l0 o0 (fst (c o0)) (snd (c o0)) ->
  (forall l1 o1, Ran l1 o1 (fst (k l1 o1)) (snd (k l1 o1))) ->
  Ran l0 o0 (fst (Tr_bind _ _ k c o0)) (snd (Tr_bind _ _ k c o0)).
Proof.
  intros Hc Hk. unfold Tr_bind.
  destruct (c o0) as [[l1 | e] o1]; simpl in *.
  - apply (ran_then l0 o0 l1 o1); [exact Hc | apply Hk].
  - exact Hc.
Qed.

Lemma ran_grpc endpoint headers msg l o :
  Ran l o (fst (grpcExporter endpoint headers msg l o))
          (snd (grpcExporter endpoint headers msg l o)).
Proof.
  unfold Tracing.grpcExporter, mbind, mret, Tr_bind, Tr_ret, construct.
  set (opts := traceOpts l ++ [WithEndpoint endpoint; WithHeaders headers]).
  simpl. destruct (otlptracegrpc_New opts) as [x | e] eqn:Hnew; simpl;
    exists [GrpcNew opts]; (split; [reflexivity |]);
    (split; [reflexivity |]); (split; [reflexivity |]);
    (split; [repeat constructor; eexists; reflexivity |]);
    (split; [repeat constructor |]).
  - split; [eexists; reflexivity |].
    split; [repeat constructor; reflexivity |].
    exists [x]. split; [reflexivity |]. simpl. rewrite Hnew. reflexivity.
  - exists [], (GrpcNew opts), e, msg. simpl. auto.
Qed.

Lemma ran_zipkin url l o :
  Ran l o (fst (zipkinExporter url l o)) (snd (zipkinExporter url l o)).
Proof.
  unfold Tracing.zipkinExporter, mbind, mret, Tr_bind, Tr_ret, construct.
  simpl. destruct (zipkin_New url) as [x | e] eqn:Hnew; simpl;
    exists [ZipkinNew url]; (split; [reflexivity |]);
    (split; [reflexivity |]); (split; [reflexivity |]);
    (split; [constructor |]); (split; [constructor |]).
  - split; [reflexivity |]. split; [constructor |].
    exists [x]. split; [reflexivity |]. simpl. rewrite Hnew. reflexivity.
  - exists [], (ZipkinNew url), e, "failed to create exporter for zipkin".
    simpl. auto.
Qed.

Lemma ran_stdout l o :
  Ran l o (fst (stdoutExporter l o)) (snd (stdoutExporter l o)).
Proof.
  unfold Tracing.stdoutExporter, mbind, mret, Tr_bind, Tr_ret, construct.
  simpl. destruct stdouttrace_New as [x | e] eqn:Hnew; simpl;
    exists [StdoutNew]; (split; [reflexivity |]);
    (split; [reflexivity |]); (split; [reflexivity |]);
    (split; [constructor |]); (split; [constructor |]).
  - split; [reflexivity |]. split; [constructor |].
    exists [x]. split; [reflexivity |]. simpl. rewrite ?Hnew. reflexivity.
  - exists [], StdoutNew, e, "creating stdout exporter". simpl.
    rewrite ?Hnew. auto.
Qed.

Lemma ran_named config l o :
  Ran l o (fst (namedExporters config l o)) (snd (namedExporters config l o)).
Proof.
  unfold Tracing.namedExporters.
  apply ran_bind.
  { destruct (JaegerExporterOptions config); [apply ran_grpc | apply ran_ret]. }
  intros l1 o1. apply ran_bind.
  { destruct (ZipkinExporterOptions config); [apply ran_zipkin | apply ran_ret]. }
  intros l2 o2. apply ran_bind.
  { destruct (ElasticApmExporterOptions config); [apply ran_grpc | apply ran_ret]. }
  intros l3 o3. apply ran_bind.
  { destruct (UptraceExporterOptions config); [apply ran_grpc | apply ran_ret]. }
  intros l4 o4.
  destruct (UseStdout config); [apply ran_stdout | apply ran_ret].
Qed.

Lemma ran_otlp (providers : list OTLPProvider) :
  forall l o,
    Ran l o (fst (otlpProviders providers l o))
            (snd (otlpProviders providers l o)).
Proof.
  induction providers as [| p rest IH]; intros l o; simpl.
  - apply ran_ret.
  - destruct (Enabled p); simpl; [| apply IH].
    apply ran_bind; [apply ran_grpc | apply IH].
Qed.

(** [configExporters] is its body followed by the hand-over of
    [exporters]. *)
Lemma configExporters_ran config o :
  exists r : Locals + err,
    Ran {| traceOpts := defaultOptions; exporters := [] |} o r
        (snd (configExporters config o)) /\
    fst (configExporters config o) =
      match r with inl l => inl (exporters l) | inr e => inr e end.
Proof.
  unfold Tracing.configExporters.
  set (l0 := {| traceOpts := defaultOptions; exporters := [] |}).
  set (body := if negb (UseOTLP config) then _ else _).
  assert (Hbody : Ran l0 o (fst (body o)) (snd (body o))).
  { unfold body. destruct (UseOTLP config); simpl;
      [apply ran_otlp | apply ran_named]. }
  unfold mbind, mret, Tr_bind, Tr_ret.
  destruct (body o) as [[l | e] o']; simpl in *; eexists; split;
    try exact Hbody; reflexivity.
Qed.

(** X8: when [configExporters] fails, the constructor called last is the
    one that failed, every constructor called before it gave an exporter,
    and the error returned is the failed constructor's error wrapped with
    a message; nothing is constructed after a failure. *)
Theorem configExporters_failure (config : TracingOptions) (o : Otel) (e : err) :
  fst (configExporters config o) = inr e ->
  exists (pre : list ExporterCall) (c : ExporterCall) (cause : err)
         (msg : string),
    created (snd (configExporters config o)) = created o ++ pre ++ [c] /\
    Forall (fun c' => exists x, result c' = inl x) pre /\
    result c = inr cause /\
    e = Wrapped cause msg.
Proof.
  intros Hfail.
  destruct (configExporters_ran config o) as (r & Hran & Hr).
  rewrite Hfail in Hr. destruct r as [l | e']; [discriminate |].
  inversion Hr. subst e'.
  destruct Hran as (new & Hc & _ & _ & _ & _ & pre & c & cause & msg & Hnew & Hpre & Hbad & He).
  exists pre, c, cause, msg. rewrite Hc, Hnew. auto.
Qed.

(** X9: when [configExporters] goes through, the exporters it returns are
    the answers of the constructors it called, one for one and in the
    order of the calls. *)
Theorem configExporters_success
    (config : TracingOptions) (o : Otel) (xs : list SpanExporter) :
  fst (configExporters config o) = inl xs ->
  exists new : list ExporterCall,
    created (snd (configExporters config o)) = created o ++ new /\
    result <$> new = inl <$> xs.
Proof.
  intros Hok.
  destruct (configExporters_ran config o) as (r & Hran & Hr).
  rewrite Hok in Hr. destruct r as [l | e']; [| discriminate].
  inversion Hr. subst xs.
  destruct Hran as (new & Hc & _ & _ & _ & _ & _ & _ & xs & Hxs & Hout).
  exists new. simpl in Hxs. rewrite Hxs. auto.
Qed.

(** X10: whatever its outcome, [configExporters] only calls exporter
    constructors (the global tracer provider and propagator stay as they
    are), every gRPC exporter is made with the five-second timeout and the
    insecure option first, and the options only grow: each gRPC exporter
    is made with all the options of every gRPC exporter made before
    it. *)
Theorem configExporters_options (config : TracingOptions) (o : Otel) :
  exists new : list ExporterCall,
    created (snd (configExporters config o)) = created o ++ new /\
    globalTracerProvider (snd (configExporters config o))
      = globalTracerProvider o /\
    globalTextMapPropagator (snd (configExporters config o))
      = globalTextMapPropagator o /\
    Forall (fun g => [WithTimeout 5000000000%Z; WithInsecure] `prefix_of` g)
           (grpcOptions new) /\
    StronglySorted prefix (grpcOptions new).
Proof.
  destruct (configExporters_ran config o) as (r & Hran & _).
  destruct Hran as (new & Hc & Hp & Hq & Hfrom & Hsorted & _).
  exists new. auto.
Qed.

(** The loop over the providers only sees the enabled ones. *)
Lemma otlpProviders_enabled (providers : list OTLPProvider) :
  forall l o,
    otlpProviders providers l o =
    otlpProviders (filter (fun p => Enabled p = true) providers) l o.
Proof.
  induction providers as [| p rest IH]; intros l o; [reflexivity |].
  destruct (Enabled p) eqn:Hp.
  - rewrite filter_cons_True by exact Hp. simpl. rewrite Hp. simpl.
    unfold mbind, Tr_bind.
    destruct (grpcExporter _ _ _ l o) as [[l1 | e] o1]; [apply IH | reflexivity].
  - rewrite filter_cons_False by (rewrite Hp; discriminate).
    simpl. rewrite Hp. simpl. apply IH.
Qed.

(** X6: with [UseOTLP] set, [configExporters] depends on the enabled
    providers only: two configurations with the same enabled providers, in
    the same order, make it do the same, whatever their disabled
    providers and their Jaeger, Zipkin, Elastic APM, Uptrace and stdout
    settings are. *)
Theorem configExporters_otlp_enabled_only
    (config config' : TracingOptions) (o : Otel) :
  UseOTLP config = true ->
  UseOTLP config' = true ->
  filter (fun p => Enabled p = true) (OTLPProviders config) =
  filter (fun p => Enabled p = true) (OTLPProviders config') ->
  configExporters config o = configExporters config' o.
Proof.
  intros H H' Hsame. unfold Tracing.configExporters. rewrite H, H'. simpl.
  unfold mbind, Tr_bind.
  rewrite (otlpProviders_enabled (OTLPProviders config)),
    (otlpProviders_enabled (OTLPProviders config')), Hsame.
  reflexivity.
Qed.

Lemma otlpProviders_ok (providers : list OTLPProvider) :
  forall l o l',
    fst (otlpProviders providers l o) = inl l' ->
    let enabled := filter (fun p => Enabled p = true) providers in
    exists xs : list SpanExporter,
      exporters l' = exporters l ++ xs /\
      length xs = length enabled /\
      forall k x, xs !! k = Some x ->
        otlptracegrpc_New
          (traceOpts l ++ flat_map providerOptionsOf (take (S k) enabled))
        = inl x.
Proof.
  induction providers as [| p rest IH]; intros l o l'; simpl.
  - intros H. inversion H. exists []. rewrite app_nil_r.
    split; [reflexivity |]. split; [reflexivity |].
    intros k x Hk. destruct k; discriminate Hk.
  - destruct (Enabled p) eqn:Hp; simpl.
    + rewrite filter_cons_True by exact Hp.
      unfold mbind, mret, Tr_bind, Tr_ret, Tracing.grpcExporter, construct.
      simpl.
      destruct (otlptracegrpc_New _) as [x0 | e] eqn:Hnew; simpl;
        [| discriminate].
      intros Hrest. destruct (IH _ _ _ Hrest) as (xs & Hxs & Hlen & Hopts).
      simpl in Hxs, Hopts. exists (x0 :: xs).
      split; [rewrite Hxs, <- app_assoc; reflexivity |].
      split; [simpl; rewrite Hlen; reflexivity |].
      intros [| k] x Hk; simpl in Hk.
      * inversion Hk. subst x. simpl. rewrite ?take_0. simpl.
        rewrite ?app_nil_r. exact Hnew.
      * specialize (Hopts k x Hk). rewrite <- app_assoc in Hopts.
        exact Hopts.
    + rewrite filter_cons_False by (rewrite Hp; discriminate). apply IH.
Qed.

(** X7: with [UseOTLP] set, a [configExporters] that goes through returns
    one exporter per enabled provider, and the exporter of the k-th
    enabled provider was made with the two default options followed by
    the endpoint and headers of every enabled provider up to and
    including the k-th: its own come last, those of the providers before
    it are still there. *)
Theorem configExporters_otlp_success
    (config : TracingOptions) (o : Otel) (xs : list SpanExporter) :
  UseOTLP config = true ->
  fst (configExporters config o) = inl xs ->
  let enabled := filter (fun p => Enabled p = true) (OTLPProviders config) in
  length xs = length enabled /\
  forall (k : nat) (x : SpanExporter),
    xs !! k = Some x ->
    otlptracegrpc_New
      (defaultOptions ++ flat_map providerOptionsOf (take (S k) enabled))
    = inl x.
Proof.
  intros Hotlp. unfold Tracing.configExporters. rewrite Hotlp. simpl.
  unfold mbind, mret, Tr_bind, Tr_ret.
  destruct (otlpProviders _ _ o) as [[l' | e] o'] eqn:Hrun; simpl;
    [| discriminate].
  intros H. inversion H. subst xs.
  destruct (otlpProviders_ok (OTLPProviders config)
              {| traceOpts := defaultOptions; exporters := [] |} o l')
    as (xs & Hxs & Hlen & Hopts).
  { rewrite Hrun. reflexivity. }
  simpl in Hxs. rewrite Hxs. auto.
Qed.

(** X13: without [UseOTLP], the constructors are called in the order
    Jaeger, Zipkin, Elastic APM, Uptrace, stdout, each only if configured;
    the gRPC exporter of Elastic APM is made with Jaeger's endpoint and
    headers before its own, and that of Uptrace with those of both.  The
    calls made are a front of that list, and all of it when
    [configExporters] goes through. *)
Theorem configExporters_named_calls (config : TracingOptions) (o : Otel) :
  UseOTLP config = false ->
  exists new : list ExporterCall,
    created (snd (configExporters config o)) = created o ++ new /\
    new `prefix_of` namedCalls config /\
    (forall xs, fst (configExporters config o) = inl xs ->
                new = namedCalls config).
Proof.
  intros Hnamed.
  unfold Tracing.configExporters, Tracing.namedExporters, Tracing.grpcExporter,
    Tracing.zipkinExporter, Tracing.stdoutExporter, construct, namedCalls,
    mbind, mret, Tr_bind, Tr_ret.
  rewrite Hnamed. simpl.
  destruct (JaegerExporterOptions config) as [j |],
    (ZipkinExporterOptions config) as [z |],
    (ElasticApmExporterOptions config) as [a |],
    (UptraceExporterOptions config) as [u |],
    (UseStdout config); simpl;
    repeat (match goal with
            | |- context [match otlptracegrpc_New ?x with _ => _ end] =>
                destruct (otlptracegrpc_New x); simpl
            | |- context [match zipkin_New ?x with _ => _ end] =>
                destruct (zipkin_New x); simpl
            | |- context [match stdouttrace_New with _ => _ end] =>
                destruct stdouttrace_New; simpl
            end);
    rewrite <- ?app_assoc; simpl;
    (first [ exists []; split; [rewrite app_nil_r; reflexivity |]
           | eexists; split; [reflexivity |] ];
     split;
      [eexists; simpl; reflexivity
      | intros xs Hxs; try discriminate Hxs; reflexivity]).
Qed.

#[local] Abbreviation newResource := (newResource resource_New).
#[local] Abbreviation NewOtelTracing :=
  (NewOtelTracing otlptracegrpc_New zipkin_New stdouttrace_New resource_New).

(** X11: when [NewOtelTracing] fails, the global tracer provider and the
    global propagator are what they were.  Either the resource could not
    be made, in which case the error is the resource error wrapped with
    "failed to create resource" and no exporter constructor was called; or
    the error is the one [configExporters] gave, passed on as it is. *)
Theorem NewOtelTracing_failure
    (cfg : TracingOptions) (env : string) (g : Otel) (e : err) :
  fst (NewOtelTracing cfg env g) = inr e ->
  globalTracerProvider (snd (NewOtelTracing cfg env g))
    = globalTracerProvider g /\
  globalTextMapPropagator (snd (NewOtelTracing cfg env g))
    = globalTextMapPropagator g /\
  ((exists cause,
      snd (newResource cfg env) = Some cause /\
      e = Wrapped cause "failed to create resource" /\
      snd (NewOtelTracing cfg env g) = g) \/
   (snd (newResource cfg env) = nil /\
    fst (configExporters cfg g) = inr e)).
Proof.
  unfold Tracing.NewOtelTracing, initTracer. simpl.
  destruct (newResource cfg env) as [resource [cause |]]; simpl.
  - intros H. inversion H. subst e. split; [reflexivity |].
    split; [reflexivity |]. left. exists cause. auto.
  - destruct (configExporters_options cfg g) as (new & _ & Hp & Hq & _).
    destruct (configExporters cfg g) as [[xs | e'] g']; simpl in *;
      [discriminate |].
    intros H. inversion H. subst e'. auto.
Qed.

(** X12: when [NewOtelTracing] goes through, the resource and every
    exporter were made; the tracer provider it installs globally is the
    one the returned object keeps (the one [Shutdown] acts on), made from
    one batcher per exporter, in their order, then the resource, then the
    sampler the configuration asks for; the global propagator is the
    composite of OT, Baggage and TraceContext; and the returned object
    carries the tracer named by [InstrumentationName]. *)
Theorem NewOtelTracing_success
    (cfg : TracingOptions) (env : string) (g : Otel)
    (t : TracingOpenTelemetry SpanExporter Resource) :
  fst (NewOtelTracing cfg env g) = inl t ->
  exists xs : list SpanExporter,
    snd (newResource cfg env) = nil /\
    fst (configExporters cfg g) = inl xs /\
    let tp :=
      NewTracerProvider
        ((WithBatcher <$> xs) ++
         [WithResource (fst (newResource cfg env));
          WithSampler (if AlwaysOnSampler cfg then AlwaysSample
                       else NeverSample)]) in
    provider t = Some tp /\
    globalTracerProvider (snd (NewOtelTracing cfg env g)) = Some tp /\
    globalTextMapPropagator (snd (NewOtelTracing cfg env g))
      = Some [OT; Baggage; TraceContext] /\
    appTracer t = Some (NewAppTracer (InstrumentationName cfg)) /\
    config t = cfg /\
    environment t = env.
Proof.
  unfold Tracing.NewOtelTracing, initTracer. simpl.
  destruct (newResource cfg env) as [resource [cause |]]; simpl;
    [discriminate |].
  destruct (configExporters cfg g) as [[xs | e'] g']; simpl;
    [| discriminate].
  intros H. inversion H. subst t. simpl. exists xs.
  repeat split; reflexivity.
Qed.

End Setup.

(** The experiments' configuration without [UseOTLP]: Jaeger, Zipkin,
    Elastic APM and stdout, in that order. *)
Example demo_named_exporters :
  fst (configExporters demo_grpc demo_zipkin demo_stdout demoOptions
         (@freshOtel string unit))
  = inl ["grpc:jaeger:4317"; "zipkin:http://zipkin:9411"; "grpc:apm:8200";
         "stdout"].
Proof. vm_compute. reflexivity. Qed.

(** With [UseOTLP]: the two enabled collectors, and nothing else. *)
Example demo_otlp_exporters :
  fst (configExporters demo_grpc demo_zipkin demo_stdout demoOtlpOptions
         (@freshOtel string unit))
  = inl ["grpc:a:4317"; "grpc:c:4317"].
Proof. vm_compute. reflexivity. Qed.

Lemma configExporters_failure_witness :
  exists (pre : list (@ExporterCall)) (c : ExporterCall) (cause : err)
         (msg : string),
    created (snd (configExporters demo_grpc demo_zipkin demo_stdout
                    brokenOptions (@freshOtel string unit)))
      = [] ++ pre ++ [c] /\
    Forall (fun c' => exists x, outcome demo_grpc demo_zipkin demo_stdout c'
                                = inl x) pre /\
    outcome demo_grpc demo_zipkin demo_stdout c = inr cause /\
    Wrapped (New "invalid collector URL")
      "failed to create exporter for zipkin" = Wrapped cause msg.
Proof.
  apply (configExporters_failure demo_grpc demo_zipkin demo_stdout
           brokenOptions (@freshOtel string unit)).
  vm_compute. reflexivity.
Defined.

Lemma configExporters_success_witness :
  exists new : list ExporterCall,
    created (snd (configExporters demo_grpc demo_zipkin demo_stdout
                    demoOptions (@freshOtel string unit)))
      = [] ++ new /\
    outcome demo_grpc demo_zipkin demo_stdout <$> new =
      inl <$> ["grpc:jaeger:4317"; "zipkin:http://zipkin:9411";
               "grpc:apm:8200"; "stdout"].
Proof.
  apply (configExporters_success demo_grpc demo_zipkin demo_stdout
           demoOptions (@freshOtel string unit)).
  vm_compute. reflexivity.
Defined.

Lemma configExporters_otlp_enabled_only_witness :
  configExporters demo_grpc demo_zipkin demo_stdout demoOtlpOptions
    (@freshOtel string unit)
  = configExporters demo_grpc demo_zipkin demo_stdout
      {| ServiceName := "orders"; Version := "1.0"; Id := 1;
         InstrumentationName := "orders-tracer"; AlwaysOnSampler := false;
         UseOTLP := true; UseStdout := false;
         JaegerExporterOptions := None; ZipkinExporterOptions := None;
         ElasticApmExporterOptions := None; UptraceExporterOptions := None;
         OTLPProviders := [collector "a:4317" true; collector "c:4317" true] |}
      (@freshOtel string unit).
Proof.
  apply (configExporters_otlp_enabled_only demo_grpc demo_zipkin demo_stdout).
  - reflexivity.
  - reflexivity.
  - vm_compute. reflexivity.
Defined.

Lemma configExporters_otlp_success_witness :
  length ["grpc:a:4317"; "grpc:c:4317"] = 2 /\
  demo_grpc
    (defaultOptions ++
     flat_map providerOptionsOf
       [collector "a:4317" true; collector "c:4317" true])
  = inl "grpc:c:4317".
Proof.
  destruct (configExporters_otlp_success demo_grpc demo_zipkin demo_stdout
              demoOtlpOptions (@freshOtel string unit)
              ["grpc:a:4317"; "grpc:c:4317"] eq_refl)
    as [Hlen Hopts].
  - vm_compute. reflexivity.
  - split; [exact Hlen |]. apply (Hopts 1 "grpc:c:4317"). reflexivity.
Defined.

Lemma configExporters_named_calls_witness :
  exists new : list ExporterCall,
    created (snd (configExporters demo_grpc demo_zipkin demo_stdout
                    demoOptions (@freshOtel string unit)))
      = [] ++ new /\
    new `prefix_of` namedCalls demoOptions /\
    (forall xs,
       fst (configExporters demo_grpc demo_zipkin demo_stdout demoOptions
              (@freshOtel string unit)) = inl xs ->
       new = namedCalls demoOptions).
Proof.
  apply (configExporters_named_calls demo_grpc demo_zipkin demo_stdout
           demoOptions (@freshOtel string unit)).
  reflexivity.
Defined.

Lemma NewOtelTracing_failure_witness :
  globalTracerProvider
    (snd (NewOtelTracing demo_grpc demo_zipkin demo_stdout demo_resource
            brokenOptions "test" (@freshOtel string unit))) = None.
Proof.
  destruct (NewOtelTracing_failure demo_grpc demo_zipkin demo_stdout
              demo_resource brokenOptions "test" (@freshOtel string unit)
              (Wrapped (New "invalid collector URL")
                 "failed to create exporter for zipkin"))
    as (Hp & _ & _).
  - vm_compute. reflexivity.
  - exact Hp.
Defined.

Lemma NewOtelTracing_success_witness :
  exists t : TracingOpenTelemetry string unit,
    fst (NewOtelTracing demo_grpc demo_zipkin demo_stdout demo_resource
           demoOptions "test" (@freshOtel string unit)) = inl t /\
    provider t =
      globalTracerProvider
        (snd (NewOtelTracing demo_grpc demo_zipkin demo_stdout demo_resource
                demoOptions "test" (@freshOtel string unit))) /\
    appTracer t = Some (NewAppTracer "orders-tracer").
Proof.
  destruct (NewOtelTracing demo_grpc demo_zipkin demo_stdout demo_resource
              demoOptions "test" (@freshOtel string unit)) as [[t | e] g']
    eqn:Hrun; [| vm_compute in Hrun; discriminate Hrun].
  exists t. split; [reflexivity |].
  destruct (NewOtelTracing_success demo_grpc demo_zipkin demo_stdout
              demo_resource demoOptions "test" (@freshOtel string unit) t)
    as (xs & _ & _ & Hp & Hg & _ & Ht & _).
  - rewrite Hrun. reflexivity.
  - rewrite Hrun in Hg. simpl in Hg. simpl. rewrite Hp, Hg. auto.
Defined.

End TracingSpec.

(** * Properties of the orders service configurator *)

Module OrdersServiceSpec.
Import Errors OrdersService.

Section Configurator.

Context {GrpcServer EchoHttpServer OrdersMetrics Bus Worker : Type}.
Context (NewGrpcServer : GrpcServer).
Context (NewEchoHttpServer : EchoHttpServer).
Context (GetMicroserviceNameUpper : string).
Context (ConfigOrdersMetrics : OrdersMetrics + err).
Context (ConfigOrdersRabbitMQ : Bus + err).
Context (ConfigOrdersSubscriptionAllWorker : Bus -> Worker + err).
Context (ConfigureOrdersModule : OrdersMetrics -> Bus -> error).

#[local] Abbreviation run :=
  (ConfigureOrdersService NewGrpcServer NewEchoHttpServer
     GetMicroserviceNameUpper ConfigOrdersMetrics ConfigOrdersRabbitMQ
     ConfigOrdersSubscriptionAllWorker ConfigureOrdersModule).
#[local] Abbreviation Step := (Step OrdersMetrics Bus).
#[local] Abbreviation preamble :=
  (@preamble OrdersMetrics Bus GetMicroserviceNameUpper).

Ltac unfold_run :=
  unfold ConfigureOrdersService, OrdersService.preamble, mbind, mret, Cf_bind,
    Cf_ret, did, tried, configureModule, WithMessage; simpl.

(** X14: when [ConfigureOrdersService] fails, the servers were made, the
    default middlewares set up and the root route and Swagger registered
    all the same, and the steps stop at the one that failed: the metrics,
    the RabbitMQ bus, the subscription worker (bound to the bus just
    made), or the orders module.  The error is the failed step's own,
    except for the orders module, whose error gets a message. *)
Theorem ConfigureOrdersService_failure (t : list Step) (e : err) :
  fst (run t) = inr e ->
  exists rest : list Step,
    snd (run t) = t ++ preamble ++ ConfiguredMetrics :: rest /\
    ((ConfigOrdersMetrics = inr e /\ rest = []) \/
     (exists m,
        ConfigOrdersMetrics = inl m /\ ConfigOrdersRabbitMQ = inr e /\
        rest = [ConfiguredRabbitMQ]) \/
     (exists m b,
        ConfigOrdersMetrics = inl m /\ ConfigOrdersRabbitMQ = inl b /\
        ConfigOrdersSubscriptionAllWorker b = inr e /\
        rest = [ConfiguredRabbitMQ; ConfiguredSubscriptionAllWorker b]) \/
     (exists m b w cause,
        ConfigOrdersMetrics = inl m /\ ConfigOrdersRabbitMQ = inl b /\
        ConfigOrdersSubscriptionAllWorker b = inl w /\
        ConfigureOrdersModule m b = Some cause /\
        e = Wrapped cause
          "[ordersServiceConfigurator_ConfigureOrdersService.NewOrdersModuleConfigurator] error in order module configurator" /\
        rest = [ConfiguredRabbitMQ; ConfiguredSubscriptionAllWorker b;
                MadeModuleConfigurator m b; ConfiguredOrdersModule])).
Proof.
  unfold_run.
  destruct ConfigOrdersMetrics as [m | e1] eqn:Hm; simpl.
  2:{ intros H. inversion H. subst. exists []. split.
      - rewrite <- !app_assoc. reflexivity.
      - left. auto. }
  destruct ConfigOrdersRabbitMQ as [b | e2] eqn:Hb; simpl.
  2:{ intros H. inversion H. subst. exists [ConfiguredRabbitMQ]. split.
      - rewrite <- !app_assoc. reflexivity.
      - right. left. exists m. auto. }
  destruct (ConfigOrdersSubscriptionAllWorker b) as [w | e3] eqn:Hw; simpl.
  2:{ intros H. inversion H. subst.
      exists [ConfiguredRabbitMQ; ConfiguredSubscriptionAllWorker b]. split.
      - rewrite <- !app_assoc. reflexivity.
      - right. right. left. exists m, b. auto. }
  destruct (ConfigureOrdersModule m b) as [cause |] eqn:Hmod; simpl;
    [| discriminate].
  intros H. inversion H. subst.
  exists [ConfiguredRabbitMQ; ConfiguredSubscriptionAllWorker b;
          MadeModuleConfigurator m b; ConfiguredOrdersModule].
  split.
  - rewrite <- !app_assoc. reflexivity.
  - right. right. right. exists m, b, w, cause. repeat split; assumption.
Qed.

(** X15: when [ConfigureOrdersService] goes through, every step was
    taken, in the order of the source; the configurations returned hold
    the two servers, the metrics, the bus and the worker that were made;
    and the subscription worker and the orders module were given that same
    bus (and the module those same metrics). *)
Theorem ConfigureOrdersService_success
    (t : list Step)
    (cfgs : OrderServiceConfigurations GrpcServer EchoHttpServer OrdersMetrics
              Bus Worker) :
  fst (run t) = inl cfgs ->
  exists m b w,
    ConfigOrdersMetrics = inl m /\
    ConfigOrdersRabbitMQ = inl b /\
    ConfigOrdersSubscriptionAllWorker b = inl w /\
    ConfigureOrdersModule m b = nil /\
    cfgs = {| OrdersGrpcServer := Some NewGrpcServer;
              OrdersEchoServer := Some NewEchoHttpServer;
              OrdersMetrics_ := Some m; OrdersBus := Some b;
              OrdersSubscriptionAllWorker := Some w |} /\
    snd (run t) =
      t ++ preamble ++
        [ConfiguredMetrics; ConfiguredRabbitMQ;
         ConfiguredSubscriptionAllWorker b; MadeModuleConfigurator m b;
         ConfiguredOrdersModule].
Proof.
  unfold_run.
  destruct ConfigOrdersMetrics as [m | e1] eqn:Hm; simpl; [| discriminate].
  destruct ConfigOrdersRabbitMQ as [b | e2] eqn:Hb; simpl; [| discriminate].
  destruct (ConfigOrdersSubscriptionAllWorker b) as [w | e3] eqn:Hw; simpl;
    [| discriminate].
  destruct (ConfigureOrdersModule m b) as [cause |] eqn:Hmod; simpl;
    [discriminate |].
  intros H. inversion H. subst. exists m, b, w.
  repeat split; try reflexivity; try assumption.
  rewrite <- !app_assoc. reflexivity.
Qed.

End Configurator.

(** The bus comes up but the worker cannot be bound to it: the bus was
    configured, the orders module never was. *)
Lemma ConfigureOrdersService_failure_witness :
  snd (ConfigureOrdersService "grpc" "echo" "ORDERS" (inl "metrics")
         (inl "down") demo_worker demo_module [])
  = [MadeGrpcServer; MadeEchoServer; SetupDefaultMiddlewares;
     RegisteredRoute "" 200 "ORDERS is running..."; ConfiguredSwagger;
     ConfiguredMetrics; ConfiguredRabbitMQ;
     ConfiguredSubscriptionAllWorker "down"].
Proof.
  destruct (ConfigureOrdersService_failure "grpc" "echo" "ORDERS"
              (inl "metrics") (inl "down") demo_worker demo_module []
              (New "subscription failed") eq_refl)
    as (rest & Hsteps & [[Hbad _] | [(m & _ & Hbad & _) | [(m & b & Hm & Hb & Hw & ->) | (m & b & w & cause & _ & Hb & Hw & _)]]]).
  - discriminate Hbad.
  - discriminate Hbad.
  - inversion Hb. subst b. rewrite Hsteps. reflexivity.
  - inversion Hb. subst b. discriminate Hw.
Defined.

Lemma ConfigureOrdersService_success_witness :
  exists m b w,
    (inl "metrics" : string + err) = inl m /\
    (inl "amqp" : string + err) = inl b /\
    demo_worker b = inl w /\
    w = "worker on amqp".
Proof.
  destruct (ConfigureOrdersService_success "grpc" "echo" "ORDERS"
              (inl "metrics") (inl "amqp") demo_worker demo_module []
              {| OrdersGrpcServer := Some "grpc"; OrdersEchoServer := Some "echo";
                 OrdersMetrics_ := Some "metrics"; OrdersBus := Some "amqp";
                 OrdersSubscriptionAllWorker := Some "worker on amqp" |}
              eq_refl)
    as (m & b & w & Hm & Hb & Hw & _ & Hcfgs & _).
  exists m, b, w. inversion Hcfgs. subst. auto.
Defined.

End OrdersServiceSpec.
